(** * The password acceptability evaluator of [main.py]

    A shallow embedding of [is_valid_password] and of the helper closures it
    defines, followed by the properties of the evaluator.

    Conventions of the embedding.
    - A Python [str] is a sequence of code points.  The model covers the code
      points U+0000..U+00FF: one [ascii] per code point, so [chr 233] is the
      single character e-acute.  The built-in character tests ([str.isdigit],
      [str.isalnum], [str.isspace], [str.lower], and the classes [\s], [\d]
      and [.] of [re]) are Python's own on that range.
    - Lengths, indices and repetition counts are [nat]; the score is a signed
      integer, [Z]; ratios and the entropy are IEEE binary64 numbers, Rocq's
      primitive [float].
    - Code that can raise ([/] and [math.log2]) lives in an error monad.
    - [math.log2] calls the C library: its [log2] is a parameter,
      [libm_log2]. *)

From Stdlib Require Import String Ascii.
From Stdlib Require Import ZArith List Bool Lia Arith.
From Stdlib Require Import Floats.PrimFloat Numbers.Cyclic.Int63.Uint63.
Import ListNotations.
Open Scope list_scope.

Set Implicit Arguments.

(* Decimal literals such as 0.55 are read as the nearest binary64 number, as
   Python reads them. *)
Set Warnings "-inexact-float".

(** ** Python strings *)

Definition str := list ascii.

(** A string literal of the source. *)
Definition lit (s : string) : str := list_ascii_of_string s.

(** [len(s)]. *)
Definition len (s : str) : nat := List.length s.

Definition ord (c : ascii) : nat := nat_of_ascii c.
Definition chr (n : nat) : ascii := ascii_of_nat n.

Definition LF : ascii := chr 10.
Definition CR : ascii := chr 13.

(** [lo <= c <= hi] on characters compares code points. *)
Definition between (lo hi c : ascii) : bool :=
  (ord lo <=? ord c) && (ord c <=? ord hi).

(** [c in chars], for a string or a set of characters. *)
Definition char_in (c : ascii) (chars : str) : bool :=
  existsb (Ascii.eqb c) chars.

(** [str.isdigit]: the ASCII digits, superscript two and three (U+00B2,
    U+00B3) and superscript one (U+00B9). *)
Definition isdigit (c : ascii) : bool :=
  between "0" "9" c || between (chr 178) (chr 179) c || Ascii.eqb c (chr 185).

(** [str.isalpha]: A-Z, a-z, the ordinal indicators and the micro sign
    (U+00AA, U+00BA, U+00B5), and the Latin-1 letters U+00C0..U+00FF without
    the multiplication and division signs (U+00D7, U+00F7). *)
Definition isalpha (c : ascii) : bool :=
  between "A" "Z" c || between "a" "z" c
  || Ascii.eqb c (chr 170) || Ascii.eqb c (chr 181) || Ascii.eqb c (chr 186)
  || between (chr 192) (chr 214) c || between (chr 216) (chr 246) c
  || between (chr 248) (chr 255) c.

(** [str.isalnum]: alphabetic, or numeric; the numeric characters of the
    range are the [isdigit] ones and the vulgar fractions U+00BC..U+00BE. *)
Definition isalnum (c : ascii) : bool :=
  isalpha c || isdigit c || between (chr 188) (chr 190) c.

(** [str.isspace]: U+0009..U+000D, U+001C..U+0020, U+0085 and U+00A0. *)
Definition isspace (c : ascii) : bool :=
  between (chr 9) (chr 13) c || between (chr 28) (chr 32) c
  || Ascii.eqb c (chr 133) || Ascii.eqb c (chr 160).

(** [str.lower] on one character: A-Z and U+00C0..U+00DE (without U+00D7)
    move up by 32, every other character of the range is kept. *)
Definition lower_char (c : ascii) : ascii :=
  if between "A" "Z" c
     || (between (chr 192) (chr 222) c && negb (Ascii.eqb c (chr 215)))
  then chr (ord c + 32) else c.

Definition lower (s : str) : str := map lower_char s.

(** [s.strip(chars)]: drop the leading and the trailing characters that
    belong to [chars]. *)
Fixpoint lstrip (chars s : str) : str :=
  match s with
  | [] => []
  | c :: t => if char_in c chars then lstrip chars t else s
  end.

Definition rstrip (chars s : str) : str := rev (lstrip chars (rev s)).

Definition strip (chars s : str) : str := rstrip chars (lstrip chars s).

Fixpoint startswith (p s : str) : bool :=
  match p, s with
  | [], _ => true
  | _ :: _, [] => false
  | a :: p', b :: s' => Ascii.eqb a b && startswith p' s'
  end.

(** [sub in text]: [sub] occurs in [text] as a contiguous substring. *)
Fixpoint str_in (sub text : str) : bool :=
  startswith sub text
  || match text with
     | [] => false
     | _ :: t => str_in sub t
     end.

(** [s == t] on strings. *)
Fixpoint str_eqb (s t : str) : bool :=
  match s, t with
  | [], [] => true
  | a :: s', b :: t' => Ascii.eqb a b && str_eqb s' t'
  | _, _ => false
  end.

(** [s[i:j]] for [0 <= i], [0 <= j]. *)
Definition slice (s : str) (i j : nat) : str := firstn (j - i) (skipn i s).

(** [s * n]. *)
Fixpoint str_mul (s : str) (n : nat) : str :=
  match n with
  | O => []
  | S n' => s ++ str_mul s n'
  end.

(** [range(lo, hi)]. *)
Definition range (lo hi : nat) : list nat := seq lo (hi - lo).

(** [len(set(s))]: the number of distinct characters. *)
Definition distinct (s : str) : nat := List.length (nodup ascii_dec s).

(** [sum] of a list of booleans. *)
Definition sum_bools (bs : list bool) : Z :=
  fold_right (fun (b : bool) acc => ((if b then 1 else 0) + acc)%Z) 0%Z bs.

(** ** Exceptions *)

Inductive exn : Set := ZeroDivisionError | ValueError.

Inductive result (A : Type) : Type :=
| Ok (a : A)
| Raise (e : exn).

Arguments Ok {A} a.
Arguments Raise {A} e.

Definition bind {A B : Type} (m : result A) (f : A -> result B) : result B :=
  match m with
  | Ok a => f a
  | Raise e => Raise e
  end.

Notation "x <- m ;; k" := (bind m (fun x => k))
  (at level 61, m at next level, right associativity).

(** ** Numbers *)

(** [float(n)] of a non-negative [int] below 2^53. *)
Definition float_of_nat (n : nat) : float :=
  PrimFloat.of_uint63 (Uint63.of_Z (Z.of_nat n)).

(** [a / b] on non-negative ints: true division, correctly rounded; it
    raises on a zero divisor. *)
Definition truediv (a b : nat) : result float :=
  if b =? 0 then Raise ZeroDivisionError
  else Ok (PrimFloat.div (float_of_nat a) (float_of_nat b)).

(** ** Regular expressions, as far as the source uses [re]

    A class is a predicate on characters.  [Group1 p] is [(p)] for a class
    [p], the only capturing group of the source, and [Back1 k] is [\1{k,}].
    [re.search(r, s) is not None] asks whether some match exists, so the
    order in which alternatives are tried does not matter. *)

Definition cls := ascii -> bool.

Definition one_of (chars : string) : cls := fun c => char_in c (lit chars).
Definition any_of (ps : list cls) : cls := fun c => existsb (fun p : cls => p c) ps.
Definition none_of (ps : list cls) : cls := fun c => negb (any_of ps c).

(** [.] without [re.DOTALL]: any character except a newline. *)
Definition dot : cls := fun c => negb (Ascii.eqb c LF).
(** [\d] on the modelled range: the decimal digits. *)
Definition re_d : cls := between "0" "9".
(** [\s]: the characters [str.isspace] accepts. *)
Definition re_s : cls := isspace.

Inductive regex : Type :=
| Chr (p : cls)
| Seq (r1 r2 : regex)
| Alt (r1 r2 : regex)
| Plus (p : cls)
| Star (p : cls)
| Eol
| Group1 (p : cls)
| Back1 (k : nat).

(** [p*] then the continuation. *)
Fixpoint match_star (p : cls) (s : str) (k : str -> bool) : bool :=
  k s
  || match s with
     | [] => false
     | c :: t => p c && match_star p t k
     end.

(** [n] copies of [c], then [c*], then the continuation. *)
Fixpoint match_back (c : ascii) (n : nat) (s : str) (k : str -> bool) : bool :=
  match n with
  | O => match_star (Ascii.eqb c) s k
  | S n' =>
      match s with
      | [] => false
      | x :: t => Ascii.eqb c x && match_back c n' t k
      end
  end.

(** [$] without [re.MULTILINE]: the end of the string, or just before a
    newline that ends the string. *)
Definition at_eol (s : str) : bool :=
  match s with
  | [] => true
  | [c] => Ascii.eqb c LF
  | _ => false
  end.

(** Match [r] at the head of [s]; [g] is what group 1 holds. *)
Fixpoint rmatch (r : regex) (g : option ascii) (s : str)
  (k : option ascii -> str -> bool) : bool :=
  match r with
  | Chr p => match s with [] => false | c :: t => p c && k g t end
  | Seq r1 r2 => rmatch r1 g s (fun g' t => rmatch r2 g' t k)
  | Alt r1 r2 => rmatch r1 g s k || rmatch r2 g s k
  | Plus p => match s with [] => false | c :: t => p c && match_star p t (k g) end
  | Star p => match_star p s (k g)
  | Eol => at_eol s && k g s
  | Group1 p => match s with [] => false | c :: t => p c && k (Some c) t end
  | Back1 n => match g with None => false | Some c => match_back c n s (k g) end
  end.

Definition match_here (r : regex) (s : str) : bool :=
  rmatch r None s (fun _ _ => true).

(** [re.search(r, s) is not None]. *)
Fixpoint re_search (r : regex) (s : str) : bool :=
  match_here r s
  || match s with
     | [] => false
     | _ :: t => re_search r t
     end.

(** [re.sub(r"[^...]", "", s)] for a negated class: keep the characters of
    the class. *)
Definition re_sub_keep (keep : cls) (s : str) : str := filter keep s.

(** [re.split(r"[...]+", s)] for a class [sep]: the pieces between the
    maximal runs of separators, with an empty piece before a leading run and
    after a trailing one.  [cur] is the piece being read, reversed, and
    [in_sep] tells that the previous character was a separator. *)
Fixpoint split_loop (sep : cls) (s : str) (cur : str) (in_sep : bool)
  : list str :=
  match s with
  | [] => [rev cur]
  | c :: t =>
      if sep c then
        if in_sep then split_loop sep t cur true
        else rev cur :: split_loop sep t [] true
      else split_loop sep t (c :: cur) false
  end.

Definition re_split_plus (sep : cls) (s : str) : list str :=
  split_loop sep s [] false.

(** ** The helper closures of [is_valid_password] *)

(** The frequency table [freq] of [shannon_entropy_per_char]: a [dict] keeps
    its keys in insertion order, and the sum below runs over
    [freq.values()] in that order. *)
Fixpoint dict_incr (ch : ascii) (freq : list (ascii * nat))
  : list (ascii * nat) :=
  match freq with
  | [] => [(ch, 1)]
  | (key, c) :: rest =>
      if Ascii.eqb key ch then (key, S c) :: rest
      else (key, c) :: dict_incr ch rest
  end.

(** [for ch in text: freq[ch] = freq.get(ch, 0) + 1]. *)
Definition char_freq (text : str) : list (ascii * nat) :=
  fold_left (fun freq ch => dict_incr ch freq) text [].

(** [char_classes(text)]: (has_lower, has_upper, has_digit, has_symbol). *)
Definition char_classes (text : str) : bool * bool * bool * bool :=
  let has_lower := existsb (between "a" "z") text in
  let has_upper := existsb (between "A" "Z") text in
  let has_digit := existsb isdigit text in
  let has_symbol := existsb (fun c => negb (isalnum c) && negb (isspace c)) text in
  (has_lower, has_upper, has_digit, has_symbol).

(** The windows [r[i : i + min_run]] for [i in range(len(r) - min_run + 1)];
    the range is empty when the bound is not positive. *)
Definition windows (r : str) (min_run : nat) : list str :=
  map (fun i => slice r i (i + min_run)) (range 0 (len r + 1 - min_run)).

Definition looks_like_sequence (text : str) (min_run : nat) : bool :=
  if len text <? min_run then false
  else
    let runs :=
      [ lit "abcdefghijklmnopqrstuvwxyz";
        lit "ABCDEFGHIJKLMNOPQRSTUVWXYZ";
        lit "0123456789" ] in
    existsb
      (fun r =>
         existsb (fun w => str_in w text) (windows r min_run)
         || (let rev_r := rev r in
             existsb (fun w => str_in w text) (windows rev_r min_run)))
      runs.

Definition has_keyboard_run (text : str) (min_run : nat) : bool :=
  let rows := [ lit "qwertyuiop"; lit "asdfghjkl"; lit "zxcvbnm" ] in
  let t := lower text in
  existsb
    (fun row =>
       existsb (fun seg => str_in seg t || str_in (rev seg) t)
         (windows row min_run))
    rows.

(** [[A-Za-z]], [[AEIOUaeiou]] and
    [[B-DF-HJ-NP-TV-Zb-df-hj-np-tv-z]]. *)
Definition re_letter : cls := any_of [between "A" "Z"; between "a" "z"].
Definition re_vowel : cls := one_of "AEIOUaeiou".
Definition re_consonant : cls :=
  any_of [ between "B" "D"; between "F" "H"; between "J" "N";
           between "P" "T"; between "V" "Z";
           between "b" "d"; between "f" "h"; between "j" "n";
           between "p" "t"; between "v" "z" ].

Definition looks_like_word_segment (seg : str) : bool :=
  let seg := re_sub_keep re_letter seg in
  if len seg <? 4 then false
  else
    let has_vowel := re_search (Chr re_vowel) seg in
    let has_cons :=
      existsb (fun c => isalpha c && negb (str_in [lower_char c] (lit "aeiou")))
        seg in
    let sandwich :=
      re_search (Seq (Chr re_consonant) (Seq (Chr re_vowel) (Chr re_consonant)))
        seg in
    has_vowel && has_cons && sandwich.

(** [[\s\-_\.@#\$%!:\+\*]], the separators of [wordish_presence]. *)
Definition re_separator : cls := any_of [re_s; one_of "-_.@#$%!:+*"].

(** [[A-Z][a-z]+[A-Z][a-z]*]. *)
Definition re_camel : regex :=
  Seq (Chr (between "A" "Z"))
    (Seq (Plus (between "a" "z"))
       (Seq (Chr (between "A" "Z")) (Star (between "a" "z")))).

Definition wordish_presence (text : str) : bool :=
  if existsb looks_like_word_segment (re_split_plus re_separator text) then true
  else if re_search re_camel text then true
  else false.

Definition repeating_substring (text : str) : bool :=
  let n := len text in
  existsb
    (fun m => (n mod m =? 0) && str_eqb text (str_mul (slice text 0 m) (n / m)))
    (range 1 (Nat.min 4 n)).

(** [(.)\1{k,}]. *)
Definition long_run_same_char (text : str) (k : nat) : bool :=
  re_search (Seq (Group1 dot) (Back1 k)) text.

(** The lookalike groups of [ambiguous_ratio], each a set of characters. *)
Definition groups : list str :=
  [ lit "0O"; lit "1lI"; lit "5S"; lit "8B"; lit "2Z"; lit "6G" ].

(** [amb = 0; for ch in text: if any(ch in g for g in groups): amb += 1]. *)
Definition ambiguous_count (text : str) : nat :=
  fold_left
    (fun amb ch => if existsb (fun g => char_in ch g) groups then amb + 1 else amb)
    text 0.

Definition ambiguous_ratio (text : str) : result float :=
  let amb := ambiguous_count text in
  truediv amb (Nat.max 1 (len text)).

(** [[A-Za-z][0-9][A-Za-z]] or [[A-Za-z][^A-Za-z0-9][A-Za-z]]. *)
Definition non_edge_digit_symbol (text : str) : bool :=
  re_search (Seq (Chr re_letter) (Seq (Chr (between "0" "9")) (Chr re_letter)))
    text
  || re_search
       (Seq (Chr re_letter)
          (Seq (Chr (none_of [between "A" "Z"; between "a" "z"; between "0" "9"]))
             (Chr re_letter)))
       text.

(** [(19\d{2}|20[0-3]\d)$]. *)
Definition re_year : regex :=
  Seq
    (Alt
       (Seq (Chr (one_of "1")) (Seq (Chr (one_of "9")) (Seq (Chr re_d) (Chr re_d))))
       (Seq (Chr (one_of "2"))
          (Seq (Chr (one_of "0")) (Seq (Chr (between "0" "3")) (Chr re_d)))))
    Eol.

Definition has_year_like_suffix (text : str) : bool := re_search re_year text.

Definition COMMON_BAD : list str :=
  map lit
    [ "password"; "passw0rd"; "qwerty"; "asdfgh"; "zxcvbn"; "iloveyou";
      "welcome"; "admin"; "letmein"; "login"; "user"; "guest"; "abc123";
      "password1"; "p@ssword"; "dragon"; "football" ]%string.

Section Evaluator.

(** The C library's [log2] on doubles. *)
Variable libm_log2 : float -> float.

(** [math.log2(x)] on a float, as CPython computes it: a NaN is returned
    as it is; for [x > 0] the C result, unless it is a NaN or it is infinite
    for a finite [x]; every other case is a [ValueError] (math domain
    error). *)
Definition math_log2 (x : float) : result float :=
  if is_nan x then Ok x
  else if (0 <? x)%float then
    let r := libm_log2 x in
    if is_nan r || (is_infinity r && is_finite x) then Raise ValueError
    else Ok r
  else Raise ValueError.

(** [for c in freq.values(): p = c / len(text); H -= p * math.log2(p)]. *)
Fixpoint entropy_loop (n : nat) (counts : list nat) (H : float)
  : result float :=
  match counts with
  | [] => Ok H
  | c :: rest =>
      p <- truediv c n ;;
      l <- math_log2 p ;;
      entropy_loop n rest (H - p * l)%float
  end.

Definition shannon_entropy_per_char (text : str) : result float :=
  match text with
  | [] => Ok 0%float
  | _ => entropy_loop (len text) (map snd (char_freq text)) 0%float
  end.

(** The scoring part of [is_valid_password], from [score = 0] to the final
    comparison. *)
Definition scoring (s : str) : result bool :=
  let score := 0%Z in
  let score :=
    if (10 <=? len s) && (len s <=? 64) then (score + 2)%Z
    else if (8 <=? len s) && (len s <? 10) then (score + 1)%Z
    else (score + 0)%Z in
  let '(has_lower, has_upper, has_digit, has_symbol) := char_classes s in
  let class_count := sum_bools [has_lower; has_upper; has_digit; has_symbol] in
  let score :=
    if (3 <=? class_count)%Z then (score + 2)%Z
    else if (class_count =? 2)%Z then (score + 1)%Z
    else (score - 3)%Z in
  let score := if wordish_presence s then (score + 2)%Z else score in
  let score := if non_edge_digit_symbol s then (score + 1)%Z else score in
  let score := if has_year_like_suffix s then (score - 2)%Z else score in
  let score := if looks_like_sequence s 4 then (score - 2)%Z else score in
  let score := if has_keyboard_run s 4 then (score - 2)%Z else score in
  let score := if long_run_same_char s 3 then (score - 2)%Z else score in
  uniq_ratio <- truediv (distinct s) (len s) ;;
  let score :=
    if (0.5 <=? uniq_ratio)%float then (score + 1)%Z
    else if (uniq_ratio <=? 0.3)%float then (score - 1)%Z
    else score in
  amb <- ambiguous_ratio s ;;
  let score :=
    if (0.35 <? amb)%float then (score - 2)%Z
    else if (0.15 <? amb)%float then (score - 1)%Z
    else score in
  H <- shannon_entropy_per_char s ;;
  let score :=
    if (12 <=? len s) && (2.5 <=? H)%float then (score + 1)%Z else score in
  Ok (3 <=? score)%Z.

(** [is_valid_password(password)] for a [str]; the [isinstance] guard is the
    type of the argument. *)
Definition is_valid_password (password : str) : result bool :=
  let s := strip [LF; CR] password in
  if len s <? 8 then Ok false
  else if 128 <? len s then Ok false
  else
    let lowered := lower s in
    if existsb (fun token => str_in token lowered) COMMON_BAD then Ok false
    else if looks_like_sequence s 5 || has_keyboard_run s 5 then Ok false
    else if repeating_substring s then Ok false
    else if long_run_same_char s 4 then Ok false
    else
      r <- ambiguous_ratio s ;;
      if (0.55 <? r)%float then Ok false
      else scoring s.

End Evaluator.

(** ** The decision read as a table

    The same decision, written without the error monad: the length window,
    the fatal patterns, and the score as the sum of the rows of the signal
    table.  The theorems below relate [is_valid_password] to it. *)

(** The quotient [a / b] for [b <> 0]. *)
Definition fratio (a b : nat) : float :=
  (float_of_nat a / float_of_nat b)%float.

Definition in_length_window (s : str) : bool :=
  (8 <=? len s) && (len s <=? 128).

Definition denylisted (s : str) : bool :=
  existsb (fun token => str_in token (lower s)) COMMON_BAD.

Definition amb_value (s : str) : float :=
  fratio (ambiguous_count s) (Nat.max 1 (len s)).

Definition uniq_value (s : str) : float := fratio (distinct s) (len s).

Definition fatal (s : str) : bool :=
  denylisted s
  || (looks_like_sequence s 5 || has_keyboard_run s 5)
  || repeating_substring s
  || long_run_same_char s 4
  || (0.55 <? amb_value s)%float.

Definition class_count (s : str) : Z :=
  let '(has_lower, has_upper, has_digit, has_symbol) := char_classes s in
  sum_bools [has_lower; has_upper; has_digit; has_symbol].

Definition length_points (s : str) : Z :=
  if (10 <=? len s) && (len s <=? 64) then 2
  else if (8 <=? len s) && (len s <? 10) then 1 else 0.

Definition class_points (s : str) : Z :=
  if (3 <=? class_count s)%Z then 2
  else if (class_count s =? 2)%Z then 1 else -3.

Definition uniq_points (s : str) : Z :=
  if (0.5 <=? uniq_value s)%float then 1
  else if (uniq_value s <=? 0.3)%float then -1 else 0.

Definition amb_points (s : str) : Z :=
  if (0.35 <? amb_value s)%float then -2
  else if (0.15 <? amb_value s)%float then -1 else 0.

Definition entropy_points (s : str) (H : float) : Z :=
  if (12 <=? len s) && (2.5 <=? H)%float then 1 else 0.

(** A row of the table that applies when its condition holds. *)
Definition row (condition : bool) (delta : Z) : Z :=
  if condition then delta else 0%Z.

(** Every row but the entropy bonus. *)
Definition score_points (s : str) : Z :=
  (length_points s
   + class_points s
   + row (wordish_presence s) 2
   + row (non_edge_digit_symbol s) 1
   + row (has_year_like_suffix s) (-2)
   + row (looks_like_sequence s 4) (-2)
   + row (has_keyboard_run s 4) (-2)
   + row (long_run_same_char s 3) (-2)
   + uniq_points s
   + amb_points s)%Z.

(** The digit and the symbol flag of [char_classes]. *)
Definition flag_digit (flags : bool * bool * bool * bool) : bool :=
  snd (fst flags).
Definition flag_symbol (flags : bool * bool * bool * bool) : bool :=
  snd flags.

(** The ASCII reading of the classes: the digits 0-9, the letters and
    digits, and space, tab, newline, vertical tab, form feed and carriage
    return. *)
Definition ascii_digit : cls := between "0" "9".
Definition ascii_alnum : cls :=
  any_of [between "0" "9"; between "A" "Z"; between "a" "z"].
Definition ascii_space : cls :=
  fun c => char_in c [chr 32; chr 9; chr 10; chr 11; chr 12; chr 13].

(** [c] occurs [n] times in a row somewhere in [s]. *)
Definition has_run (c : ascii) (n : nat) (s : str) : Prop :=
  exists pre post, s = pre ++ repeat c n ++ post.

(** [sub] occurs in [text]. *)
Definition occurs (sub text : str) : Prop :=
  exists pre post, text = pre ++ sub ++ post.

(** A stand-in for the C library's [log2], for running the evaluator: the
    binary exponent plus the linear interpolation of [log2] on the mantissa
    (in [0.5, 1)), exact at the powers of two. *)
Definition log2_interp (x : float) : float :=
  let '(m, e) := frshiftexp x in
  let r := ((of_uint63 e - 2101) + (2 * m - 2))%float in
  if is_finite r then r else 0%float.

(** ** Auxiliary definitions of the proofs *)

(** The two ends of [tok] are outside [chars]. *)
Definition edges_outside (chars tok : str) : bool :=
  match hd_error tok, hd_error (rev tok) with
  | Some c, Some d => negb (char_in c chars) && negb (char_in d chars)
  | _, _ => false
  end.

(** [c / n] is a positive finite number. *)
Definition ratio_is_regular (c n : nat) : bool :=
  let p := fratio c n in
  (0 <? p)%float && negb (is_nan p) && is_finite p.

(** The sum of the counts of a frequency table. *)
Definition total (freq : list (ascii * nat)) : nat := list_sum (map snd freq).

(** The decimal thresholds of the evaluator, compared with a quotient
    [a / n] for [a <= n <= 128], decide as the exact fractions do. *)
Definition thresholds_agree (a n : nat) : bool :=
  let q := fratio a n in
  Bool.eqb (0.55 <? q)%float (11 * n <? 20 * a)
  && Bool.eqb (0.35 <? q)%float (7 * n <? 20 * a)
  && Bool.eqb (0.15 <? q)%float (3 * n <? 20 * a)
  && Bool.eqb (0.5 <=? q)%float (n <=? 2 * a)
  && Bool.eqb (q <=? 0.3)%float (10 * a <=? 3 * n).

(** Five newlines in a row inside an otherwise well-formed password. *)
Definition newline_run_password : str :=
  lit "Nova" ++ repeat LF 5 ++ lit "Trail_19$elm".

(** The four characters of a year the evaluator finds predictable:
    [19dd], or [20dd] with a third digit between 0 and 3 (1900 to 2039). *)
Definition year_like (y : str) : bool :=
  match y with
  | [a; b; c; d] =>
      (Ascii.eqb a "1" && Ascii.eqb b "9" && re_d c && re_d d)
      || (Ascii.eqb a "2" && Ascii.eqb b "0" && between "0" "3" c && re_d d)
  | _ => false
  end.

(** The runs of [looks_like_sequence] and the rows of [has_keyboard_run]. *)
Definition sequence_runs : list str :=
  [ lit "abcdefghijklmnopqrstuvwxyz";
    lit "ABCDEFGHIJKLMNOPQRSTUVWXYZ";
    lit "0123456789" ].
Definition keyboard_rows : list str :=
  [ lit "qwertyuiop"; lit "asdfghjkl"; lit "zxcvbnm" ].

(** [freq.get(ch, 0)] on the frequency table. *)
Definition freq_get (freq : list (ascii * nat)) (ch : ascii) : nat :=
  match find (fun kv => Ascii.eqb (fst kv) ch) freq with
  | Some kv => snd kv
  | None => 0
  end.

(** [any(ch in g for g in groups)]: [ch] is a lookalike character. *)
Definition ambiguous (ch : ascii) : bool :=
  existsb (fun g => char_in ch g) groups.

(** What the ratio [a / n] keeps of the integers: it lies between 0 and
    1, is 0 only for [a = 0] and 1 only for [a = n]. *)
Definition ratio_in_unit (a n : nat) : bool :=
  let q := fratio a n in
  (0 <=? q)%float && (q <=? 1)%float
  && Bool.eqb (q =? 0)%float (a =? 0) && Bool.eqb (q =? 1)%float (a =? n).

(** [c] is a carriage return or a newline. *)
Definition newline (c : ascii) : bool := char_in c [LF; CR].

(** [post] is empty or starts with a separator. *)
Definition sep_or_end (sep : cls) (post : str) : Prop :=
  match post with
  | [] => True
  | c :: _ => sep c = true
  end.

(** [w] is a piece of [text] between separators: it holds no separator and
    is bounded, on each side, by a separator or by an end of the text. *)
Definition is_chunk (sep : cls) (w text : str) : Prop :=
  Forall (fun c => sep c = false) w
  /\ exists pre post,
       text = pre ++ w ++ post
       /\ sep_or_end sep (rev pre) /\ sep_or_end sep post.

(** The piece that [split_loop] is reading, and the pieces it has not
    reached yet. *)
Definition first_chunk (sep : cls) (cur s w : str) : Prop :=
  exists a post,
    s = a ++ post /\ Forall (fun c => sep c = false) a
    /\ sep_or_end sep post /\ w = rev cur ++ a.
Definition later_chunk (sep : cls) (s w : str) : Prop :=
  exists pre c a post,
    s = pre ++ c :: a ++ post /\ sep c = true
    /\ Forall (fun c => sep c = false) a /\ sep_or_end sep post /\ w = a.

(** [s] starts with CamelCase: an uppercase letter, one or more lowercase
    letters, an uppercase letter. *)
Definition camel_at (s : str) : Prop :=
  exists u1 lows u2 post,
    s = u1 :: lows ++ u2 :: post
    /\ between "A" "Z" u1 = true /\ lows <> []
    /\ Forall (fun c => between "a" "z" c = true) lows
    /\ between "A" "Z" u2 = true.

(** ** Strings: substrings and stripping *)

Lemma startswith_spec (p s : str) :
  startswith p s = true <-> exists post, s = p ++ post.
Proof.
  revert s; induction p as [|a p IH]; intros s; simpl.
  - split; [intros _; now exists s | reflexivity].
  - destruct s as [|b s].
    + split; [discriminate | intros [post H]; discriminate].
    + rewrite andb_true_iff, Ascii.eqb_eq, IH. split.
      * intros [-> [post ->]]. now exists post.
      * intros [post H]. injection H as -> ->. split; [reflexivity | now exists post].
Qed.

Lemma str_in_spec (sub text : str) :
  str_in sub text = true <-> occurs sub text.
Proof.
  unfold occurs. induction text as [|c t IH].
  - simpl. rewrite orb_false_r, startswith_spec. split.
    + intros [post H]. now exists [], post.
    + intros [pre [post H]]. destruct pre; [now exists post | discriminate].
  - cbn [str_in]. rewrite orb_true_iff, startswith_spec, IH. split.
    + intros [[post H] | [pre [post H]]].
      * now exists [], post.
      * exists (c :: pre), post. now rewrite H.
    + intros [pre [post H]]. destruct pre as [|a pre].
      * left. now exists post.
      * right. injection H as _ H. now exists pre, post.
Qed.

Lemma str_eqb_eq (s t : str) : str_eqb s t = true <-> s = t.
Proof.
  revert t; induction s as [|a s IH]; intros [|b t]; simpl;
    try (split; [discriminate | intros H; discriminate]);
    try (split; reflexivity).
  rewrite andb_true_iff, Ascii.eqb_eq, IH. split.
  - now intros [-> ->].
  - intros H; injection H as -> ->; auto.
Qed.

Lemma len_app (s t : str) : len (s ++ t) = len s + len t.
Proof. apply length_app. Qed.

(** What [lstrip] returns is a suffix of its argument. *)
Lemma lstrip_suffix (chars s : str) :
  exists pre, s = pre ++ lstrip chars s.
Proof.
  induction s as [|c t [pre IH]]; simpl.
  - now exists [].
  - destruct (char_in c chars).
    + exists (c :: pre). simpl. now rewrite <- IH.
    + now exists [].
Qed.

Lemma len_lstrip (chars s : str) : len (lstrip chars s) <= len s.
Proof.
  destruct (lstrip_suffix chars s) as [pre H].
  rewrite H at 2. rewrite len_app. lia.
Qed.

Lemma len_strip (chars s : str) : len (strip chars s) <= len s.
Proof.
  unfold strip, rstrip, len. rewrite length_rev.
  etransitivity; [apply len_lstrip |]. unfold len. rewrite length_rev.
  apply len_lstrip.
Qed.

(** [lstrip] stops at the first character outside [chars]. *)
Lemma lstrip_keeps (chars pre : str) (c : ascii) (rest : str) :
  char_in c chars = false ->
  exists pre', lstrip chars (pre ++ c :: rest) = pre' ++ c :: rest.
Proof.
  intros Hc. induction pre as [|a pre [pre' IH]]; simpl.
  - rewrite Hc. now exists [].
  - destruct (char_in a chars).
    + now exists pre'.
    + now exists (a :: pre).
Qed.

Lemma lstrip_keeps_occurrence (chars tok text : str) :
  edges_outside chars tok = true ->
  occurs tok text -> occurs tok (lstrip chars text).
Proof.
  unfold edges_outside. intros He [pre [post ->]].
  destruct tok as [|c tok]; cbn [hd_error] in He; [discriminate |].
  destruct (hd_error (rev (c :: tok))); [|discriminate].
  apply andb_true_iff in He as [Hc _]. apply negb_true_iff in Hc.
  destruct (lstrip_keeps chars pre c (tok ++ post) Hc) as [pre' H].
  exists pre', post. exact H.
Qed.

Lemma edges_outside_rev (chars tok : str) :
  edges_outside chars (rev tok) = edges_outside chars tok.
Proof.
  unfold edges_outside. rewrite rev_involutive.
  destruct (hd_error tok), (hd_error (rev tok)); try reflexivity.
  apply andb_comm.
Qed.

Lemma occurs_rev (tok text : str) :
  occurs tok text -> occurs (rev tok) (rev text).
Proof.
  intros [pre [post ->]]. exists (rev post), (rev pre).
  now rewrite !rev_app_distr, app_assoc.
Qed.

Lemma strip_keeps_occurrence (chars tok text : str) :
  edges_outside chars tok = true ->
  occurs tok text -> occurs tok (strip chars text).
Proof.
  intros He Ho. unfold strip, rstrip.
  rewrite <- (rev_involutive tok). apply occurs_rev.
  apply lstrip_keeps_occurrence; [now rewrite edges_outside_rev |].
  apply occurs_rev. now apply lstrip_keeps_occurrence.
Qed.

(** Lowering commutes with stripping, for a set of characters that
    [lower_char] neither leaves nor enters. *)
Lemma lower_lstrip (chars s : str) :
  (forall c, char_in (lower_char c) chars = char_in c chars) ->
  lower (lstrip chars s) = lstrip chars (lower s).
Proof.
  intros H. induction s as [|c t IH]; simpl; [reflexivity |].
  rewrite H. destruct (char_in c chars); [exact IH | reflexivity].
Qed.

Lemma lower_strip (chars s : str) :
  (forall c, char_in (lower_char c) chars = char_in c chars) ->
  lower (strip chars s) = strip chars (lower s).
Proof.
  intros H. unfold strip, rstrip, lower.
  rewrite map_rev. fold (lower (lstrip chars (rev (lstrip chars s)))).
  rewrite lower_lstrip by exact H. unfold lower. rewrite map_rev.
  fold (lower (lstrip chars s)). now rewrite lower_lstrip by exact H.
Qed.

Lemma lower_char_newlines (c : ascii) :
  char_in (lower_char c) [LF; CR] = char_in c [LF; CR].
Proof.
  destruct c as [[] [] [] [] [] [] [] []]; vm_compute; reflexivity.
Qed.

(** Stripping is idempotent. *)
Lemma lstrip_idem (chars s : str) :
  lstrip chars (lstrip chars s) = lstrip chars s.
Proof.
  induction s as [|c t IH]; simpl; [reflexivity |].
  destruct (char_in c chars) eqn:E; [exact IH |]. simpl. now rewrite E.
Qed.

Lemma rstrip_idem (chars s : str) :
  rstrip chars (rstrip chars s) = rstrip chars s.
Proof. unfold rstrip. now rewrite rev_involutive, lstrip_idem. Qed.

(** [rstrip] leaves the head of a string alone when [lstrip] does. *)
Lemma lstrip_rstrip_fixed (chars s : str) :
  lstrip chars s = s -> lstrip chars (rstrip chars s) = rstrip chars s.
Proof.
  destruct s as [|c t]; [reflexivity |]. simpl.
  destruct (char_in c chars) eqn:E.
  - intros H. pose proof (len_lstrip chars t) as L. rewrite H in L.
    unfold len in L. simpl in L. lia.
  - intros _. unfold rstrip. cbn [rev].
    destruct (lstrip_keeps chars (rev t) c [] E) as [pre' ->].
    rewrite rev_app_distr. simpl. now rewrite E.
Qed.

Lemma strip_idem (chars s : str) :
  strip chars (strip chars s) = strip chars s.
Proof.
  unfold strip.
  rewrite (@lstrip_rstrip_fixed chars (lstrip chars s) (lstrip_idem chars s)).
  apply rstrip_idem.
Qed.

(** ** Ratios of small integers

    The quotients [c / n] the evaluator forms have [1 <= c <= n <= 128]:
    each is checked to be a positive finite number. *)

Lemma ratio_table :
  forallb (fun n => forallb (fun c => ratio_is_regular c n) (seq 1 n))
    (seq 1 128) = true.
Proof. vm_compute. reflexivity. Qed.

Lemma ratio_regular (c n : nat) :
  1 <= c <= n -> n <= 128 -> ratio_is_regular c n = true.
Proof.
  intros Hc Hn. pose proof ratio_table as T.
  rewrite forallb_forall in T.
  assert (Hin : In n (seq 1 128)) by (apply in_seq; lia).
  specialize (T n Hin). rewrite forallb_forall in T.
  apply T. apply in_seq. lia.
Qed.

Lemma truediv_ok (a b : nat) : b <> 0 -> truediv a b = Ok (fratio a b).
Proof.
  intros Hb. unfold truediv. destruct (Nat.eqb_spec b 0); [contradiction | reflexivity].
Qed.

(** The division of [ambiguous_ratio] never raises: its divisor is
    [max(1, len(text))]. *)
Lemma ambiguous_ratio_ok (text : str) :
  ambiguous_ratio text = Ok (amb_value text).
Proof. unfold ambiguous_ratio, amb_value. apply truediv_ok. lia. Qed.

(** ** The frequency table *)

Lemma dict_incr_total (ch : ascii) (freq : list (ascii * nat)) :
  total (dict_incr ch freq) = S (total freq).
Proof.
  unfold total. induction freq as [|[key c] rest IH]; simpl; [reflexivity |].
  destruct (Ascii.eqb key ch); simpl; [reflexivity | rewrite IH; lia].
Qed.

Lemma dict_incr_positive (ch : ascii) (freq : list (ascii * nat)) :
  Forall (fun kv => 1 <= snd kv) freq ->
  Forall (fun kv => 1 <= snd kv) (dict_incr ch freq).
Proof.
  induction 1 as [|[key c] rest Hc Hrest IH]; simpl.
  - constructor; [simpl; lia | constructor].
  - destruct (Ascii.eqb key ch); constructor; simpl in *; auto; lia.
Qed.

Lemma fold_dict_incr (text : str) :
  forall freq,
    Forall (fun kv => 1 <= snd kv) freq ->
    Forall (fun kv => 1 <= snd kv)
      (fold_left (fun freq ch => dict_incr ch freq) text freq)
    /\ total (fold_left (fun freq ch => dict_incr ch freq) text freq)
       = total freq + len text.
Proof.
  induction text as [|ch t IH]; intros freq Hf; simpl.
  - split; [exact Hf | lia].
  - destruct (IH (dict_incr ch freq) (dict_incr_positive ch Hf)) as [H1 H2].
    split; [exact H1 |]. rewrite H2, dict_incr_total. lia.
Qed.

Lemma in_list_sum (c : nat) (l : list nat) : In c l -> c <= list_sum l.
Proof.
  induction l as [|x l IH]; simpl; [contradiction |].
  intros [-> | H]; [lia | specialize (IH H); lia].
Qed.

(** Every count of the table is between 1 and the length of the text. *)
Lemma char_freq_counts (text : str) :
  Forall (fun c => 1 <= c <= len text) (map snd (char_freq text)).
Proof.
  destruct (fold_dict_incr text (freq := [])) as [H1 H2]; [constructor |].
  fold (char_freq text) in H1, H2. apply Forall_forall. intros c Hc. split.
  - apply in_map_iff in Hc as [kv [<- Hkv]].
    rewrite Forall_forall in H1. now apply H1.
  - apply in_list_sum in Hc. unfold total in H2. simpl in H2. lia.
Qed.

Lemma thresholds_table :
  forallb (fun n => forallb (fun a => thresholds_agree a n) (seq 0 (S n)))
    (seq 1 128) = true.
Proof. vm_compute. reflexivity. Qed.

Lemma thresholds_exact (a n : nat) :
  a <= n -> 1 <= n <= 128 -> thresholds_agree a n = true.
Proof.
  intros Ha Hn. pose proof thresholds_table as T.
  rewrite forallb_forall in T.
  assert (Hin : In n (seq 1 128)) by (apply in_seq; lia).
  specialize (T n Hin). rewrite forallb_forall in T.
  apply T. apply in_seq. lia.
Qed.

Lemma ambiguous_count_le (text : str) : ambiguous_count text <= len text.
Proof.
  unfold ambiguous_count.
  enough (H : forall acc,
             fold_left
               (fun amb ch =>
                  if existsb (fun g => char_in ch g) groups then amb + 1 else amb)
               text acc <= acc + len text) by apply (H 0).
  unfold len. induction text as [|c t IH]; intros acc;
    cbn [fold_left List.length]; [lia |].
  specialize (IH (if existsb (fun g => char_in c g) groups then acc + 1 else acc)).
  destruct (existsb (fun g => char_in c g) groups); lia.
Qed.

Lemma distinct_le (s : str) : distinct s <= len s.
Proof.
  unfold distinct, len. induction s as [|c t IH]; simpl; [lia |].
  destruct (in_dec ascii_dec c t); simpl; lia.
Qed.

(** X2: the float comparisons of the evaluator, on a string in the length
    window, are the comparisons of the exact ratios with 0.55, 0.35, 0.15,
    0.5 and 0.3. *)
Theorem ratio_thresholds_exact (s : str) :
  in_length_window s = true ->
  (0.55 <? amb_value s)%float = (11 * len s <? 20 * ambiguous_count s)
  /\ (0.35 <? amb_value s)%float = (7 * len s <? 20 * ambiguous_count s)
  /\ (0.15 <? amb_value s)%float = (3 * len s <? 20 * ambiguous_count s)
  /\ (0.5 <=? uniq_value s)%float = (len s <=? 2 * distinct s)
  /\ (uniq_value s <=? 0.3)%float = (10 * distinct s <=? 3 * len s).
Proof.
  intros Hw. apply andb_true_iff in Hw as [H8 H128].
  apply Nat.leb_le in H8. apply Nat.leb_le in H128.
  assert (Hn : 1 <= len s <= 128) by lia.
  assert (Ha := thresholds_exact (ambiguous_count_le s) Hn).
  assert (Hu := thresholds_exact (distinct_le s) Hn).
  unfold thresholds_agree in Ha, Hu. cbv zeta in Ha, Hu.
  repeat (apply andb_true_iff in Ha as [Ha ?]).
  repeat (apply andb_true_iff in Hu as [Hu ?]).
  unfold amb_value, uniq_value.
  replace (Nat.max 1 (len s)) with (len s) by lia.
  repeat split; now apply eqb_prop.
Qed.

(** ** Runs of one character *)

Lemma match_star_any (p : cls) (s : str) :
  match_star p s (fun _ => true) = true.
Proof. destruct s; reflexivity. Qed.

Lemma match_back_spec (c : ascii) (n : nat) (s : str) :
  match_back c n s (fun _ => true) = true
  <-> exists post, s = repeat c n ++ post.
Proof.
  revert s; induction n as [|n IH]; intros s; cbn [match_back repeat app].
  - rewrite match_star_any. split; [intros _; now exists s | reflexivity].
  - destruct s as [|x t].
    + split; [discriminate | intros [post H]; discriminate].
    + rewrite andb_true_iff, Ascii.eqb_eq, IH. split.
      * intros [-> [post ->]]. now exists post.
      * intros [post H]. injection H as -> ->. split; [reflexivity | now exists post].
Qed.

Lemma dot_spec (c : ascii) : dot c = true <-> c <> LF.
Proof. unfold dot. rewrite negb_true_iff. apply Ascii.eqb_neq. Qed.

Lemma match_here_run (k : nat) (s : str) :
  match_here (Seq (Group1 dot) (Back1 k)) s = true
  <-> exists c post, c <> LF /\ s = repeat c (S k) ++ post.
Proof.
  unfold match_here. cbn [rmatch]. destruct s as [|c t].
  - split; [discriminate | intros (c & post & _ & H); discriminate].
  - rewrite andb_true_iff, dot_spec, match_back_spec. split.
    + intros [Hc [post ->]]. now exists c, post.
    + intros (c' & post & Hc & H). cbn [repeat app] in H.
      injection H as -> ->. split; [exact Hc | now exists post].
Qed.

(** X3: [long_run_same_char(text, k)] holds iff some character other than
    the newline occurs at least [k + 1] times in a row in [text]. *)
Theorem long_run_same_char_spec (text : str) (k : nat) :
  long_run_same_char text k = true
  <-> exists c, c <> LF /\ has_run c (S k) text.
Proof.
  unfold long_run_same_char, has_run. induction text as [|x t IH].
  - cbn [re_search]. rewrite orb_false_r, match_here_run. split.
    + intros (c & post & Hc & H). exists c. split; [exact Hc |].
      now exists [], post.
    + intros (c & Hc & pre & post & H). destruct pre; discriminate.
  - cbn [re_search]. rewrite orb_true_iff, match_here_run, IH. split.
    + intros [(c & post & Hc & H) | (c & Hc & pre & post & H)].
      * exists c. split; [exact Hc |]. now exists [], post.
      * exists c. split; [exact Hc |]. exists (x :: pre), post. now rewrite H.
    + intros (c & Hc & pre & post & H). destruct pre as [|y pre].
      * left. now exists c, post.
      * right. injection H as _ H. exists c. split; [exact Hc |].
        now exists pre, post.
Qed.

(** ** Runs of 5 and runs of 4 *)

Lemma occurs_trans (a b text : str) :
  occurs a b -> occurs b text -> occurs a text.
Proof.
  intros [p1 [q1 ->]] [p2 [q2 ->]]. exists (p2 ++ p1), (q1 ++ q2).
  now rewrite !app_assoc.
Qed.

Lemma occurs_firstn (n : nat) (w : str) : occurs (firstn n w) w.
Proof. exists [], (skipn n w). simpl. now rewrite firstn_skipn. Qed.

(** When every 5-window of [r] starts with a 4-window of [r], a text that
    holds a 5-window, or the reverse of one, holds a 4-window, or the
    reverse of one. *)
Lemma windows_shrink (r text : str) :
  forallb (fun w => existsb (str_eqb (firstn 4 w)) (windows r 4)) (windows r 5)
  = true ->
  (existsb (fun w => str_in w text) (windows r 5) = true ->
   existsb (fun w => str_in w text) (windows r 4) = true)
  /\ (existsb (fun w => str_in w text || str_in (rev w) text) (windows r 5)
      = true ->
      existsb (fun w => str_in w text || str_in (rev w) text) (windows r 4)
      = true).
Proof.
  intros T. rewrite forallb_forall in T.
  assert (K : forall w, In w (windows r 5) -> In (firstn 4 w) (windows r 4)).
  { intros w Hw. specialize (T w Hw). apply existsb_exists in T as [w4 [H4 E]].
    apply str_eqb_eq in E. now rewrite E. }
  split; intros H; apply existsb_exists in H as [w [Hw Hs]];
    apply existsb_exists; exists (firstn 4 w); (split; [now apply K |]).
  - apply str_in_spec. apply str_in_spec in Hs.
    exact (occurs_trans (occurs_firstn 4 w) Hs).
  - apply orb_true_iff in Hs as [Hs | Hs]; apply orb_true_iff; [left | right];
      apply str_in_spec; apply str_in_spec in Hs.
    + exact (occurs_trans (occurs_firstn 4 w) Hs).
    + exact (occurs_trans (occurs_rev (occurs_firstn 4 w)) Hs).
Qed.

(** X6: a run that is fatal (5 in a row) also counts as a run of the
    scoring part (4 in a row), for the alphabet and digit sequences and for
    the keyboard rows. *)
Theorem fatal_run_is_scored_run (text : str) :
  (looks_like_sequence text 5 = true -> looks_like_sequence text 4 = true)
  /\ (has_keyboard_run text 5 = true -> has_keyboard_run text 4 = true).
Proof.
  split.
  - unfold looks_like_sequence.
    destruct (Nat.ltb_spec (len text) 5); [discriminate |].
    destruct (Nat.ltb_spec (len text) 4); [lia |].
    cbv zeta. intros Hx. apply existsb_exists in Hx as [r [Hr Hw]].
    apply existsb_exists. exists r. split; [exact Hr |].
    apply orb_true_iff in Hw. apply orb_true_iff.
    simpl in Hr.
    destruct Hr as [<- | [<- | [<- | []]]];
      (destruct Hw as [Hw | Hw]; [left | right];
       (eapply windows_shrink; [vm_compute; reflexivity | exact Hw])).
  - unfold has_keyboard_run. cbv zeta.
    intros Hx. apply existsb_exists in Hx as [r [Hr Hw]].
    apply existsb_exists. exists r. split; [exact Hr |].
    simpl in Hr.
    destruct Hr as [<- | [<- | [<- | []]]];
      (eapply windows_shrink; [vm_compute; reflexivity | exact Hw]).
Qed.

Section Properties.

Variable libm_log2 : float -> float.

(** The C library's [log2] of a positive finite number is a finite
    number. *)
Hypothesis libm_log2_finite :
  forall x, (0 <? x)%float = true -> is_finite x = true ->
            is_finite (libm_log2 x) = true.

Lemma math_log2_ok (c n : nat) :
  1 <= c <= n -> n <= 128 ->
  math_log2 libm_log2 (fratio c n) = Ok (libm_log2 (fratio c n)).
Proof.
  intros Hc Hn. pose proof (ratio_regular Hc Hn) as R.
  unfold ratio_is_regular in R. cbv zeta in R.
  apply andb_true_iff in R as [R Hfin]. apply andb_true_iff in R as [Hpos Hnan].
  apply negb_true_iff in Hnan.
  pose proof (libm_log2_finite Hpos Hfin) as F.
  unfold is_finite in F. apply negb_true_iff, orb_false_iff in F as [F1 F2].
  unfold math_log2. rewrite Hnan, Hpos. cbv zeta. now rewrite F1, F2.
Qed.

Lemma entropy_loop_ok (n : nat) (counts : list nat) :
  n <= 128 -> Forall (fun c => 1 <= c <= n) counts ->
  forall H, exists H', entropy_loop libm_log2 n counts H = Ok H'.
Proof.
  intros Hn. induction 1 as [|c rest Hc Hrest IH]; intros H; simpl.
  - now exists H.
  - rewrite truediv_ok by lia. cbn [bind].
    rewrite math_log2_ok by assumption. cbn [bind]. apply IH.
Qed.

(** The entropy of a text of at most 128 characters is computed without an
    exception. *)
Lemma shannon_entropy_ok (text : str) :
  len text <= 128 -> exists H, shannon_entropy_per_char libm_log2 text = Ok H.
Proof.
  intros Hn. unfold shannon_entropy_per_char. destruct text as [|c t] eqn:E.
  - now exists 0%float.
  - rewrite <- E in *. apply entropy_loop_ok; [exact Hn | apply char_freq_counts].
Qed.

(** [is_valid_password] reaches the scoring part exactly when the stripped
    string is in the length window and shows no fatal pattern; it answers
    [False] otherwise. *)
Lemma is_valid_password_eq (password : str) :
  is_valid_password libm_log2 password =
  if in_length_window (strip [LF; CR] password)
     && negb (fatal (strip [LF; CR] password))
  then scoring libm_log2 (strip [LF; CR] password)
  else Ok false.
Proof.
  unfold is_valid_password. cbv zeta.
  set (s := strip [LF; CR] password).
  unfold in_length_window, fatal. fold (denylisted s).
  rewrite ambiguous_ratio_ok. cbn [bind].
  rewrite !Nat.ltb_antisym.
  destruct (8 <=? len s), (len s <=? 128), (denylisted s),
    (looks_like_sequence s 5 || has_keyboard_run s 5),
    (repeating_substring s), (long_run_same_char s 4),
    (0.55 <? amb_value s)%float; reflexivity.
Qed.

(** How one step of the score chain adds its row. *)
Lemma if_plus (c : bool) (x d : Z) :
  (if c then (x + d)%Z else x) = (x + row c d)%Z.
Proof. destruct c; unfold row; lia. Qed.

Lemma if_minus (c : bool) (x d : Z) :
  (if c then (x - d)%Z else x) = (x + row c (- d))%Z.
Proof. destruct c; unfold row; lia. Qed.

Lemma if_class (c1 c2 : bool) (x : Z) :
  (if c1 then (x + 2)%Z else if c2 then (x + 1)%Z else (x - 3)%Z)
  = (x + (if c1 then 2 else if c2 then 1 else -3))%Z.
Proof. destruct c1, c2; lia. Qed.

Lemma if_uniq (c1 c2 : bool) (x : Z) :
  (if c1 then (x + 1)%Z else if c2 then (x - 1)%Z else x)
  = (x + (if c1 then 1 else if c2 then -1 else 0))%Z.
Proof. destruct c1, c2; lia. Qed.

Lemma if_amb (c1 c2 : bool) (x : Z) :
  (if c1 then (x - 2)%Z else if c2 then (x - 1)%Z else x)
  = (x + (if c1 then -2 else if c2 then -1 else 0))%Z.
Proof. destruct c1, c2; lia. Qed.

Lemma if_length (c1 c2 : bool) (x : Z) :
  (if c1 then (x + 2)%Z else if c2 then (x + 1)%Z else (x + 0)%Z)
  = (x + (if c1 then 2 else if c2 then 1 else 0))%Z.
Proof. destruct c1, c2; lia. Qed.

(** Name the value a [let] binds, without copying it into the body. *)
Lemma let_elim (A B : Type) (e : A) (f : A -> B) (R : B) :
  (forall x, x = e -> f x = R) -> (let x := e in f x) = R.
Proof. intros H. exact (H e eq_refl). Qed.

Ltac name_let :=
  match goal with
  | |- (let x := ?e in @?f x) = ?R =>
      apply (@let_elim _ _ e f R); intros ? ?
  end.

(** The scoring part adds up the rows of the table. *)
Lemma scoring_eq (s : str) :
  1 <= len s <= 128 ->
  exists H,
    shannon_entropy_per_char libm_log2 s = Ok H
    /\ scoring libm_log2 s
       = Ok (3 <=? score_points s + entropy_points s H)%Z.
Proof.
  intros Hn. destruct (@shannon_entropy_ok s) as [H HH]; [lia |].
  exists H. split; [exact HH |].
  cbv beta delta [scoring].
  rewrite truediv_ok by lia. rewrite ambiguous_ratio_ok, HH.
  fold (uniq_value s).
  cbv beta iota delta [bind].
  do 2 name_let.
  cbv beta delta [score_points class_points class_count].
  destruct (char_classes s) as [[[has_lower has_upper] has_digit] has_symbol].
  cbv beta iota.
  repeat name_let.
  unfold length_points, uniq_points, amb_points, entropy_points.
  repeat match goal with
         | E : _ = (if _ then _ else _) |- _ =>
             first [ rewrite if_length in E | rewrite if_class in E
                   | rewrite if_uniq in E | rewrite if_amb in E
                   | rewrite if_plus in E | rewrite if_minus in E ]
         end.
  subst. unfold row. reflexivity.
Qed.

Lemma in_length_window_spec (s : str) :
  in_length_window s = true <-> 8 <= len s <= 128.
Proof.
  unfold in_length_window. rewrite andb_true_iff, !Nat.leb_le. reflexivity.
Qed.

Lemma entropy_points_range (s : str) (H : float) :
  (0 <= entropy_points s H <= 1)%Z.
Proof. unfold entropy_points. destruct (_ && _); lia. Qed.

(** A string in the length window without a fatal pattern is accepted as
    soon as the rows other than the entropy bonus reach 3 points, and
    rejected when they stay below 2. *)
Lemma accepted_by_points (password : str) :
  in_length_window (strip [LF; CR] password) = true ->
  fatal (strip [LF; CR] password) = false ->
  (3 <= score_points (strip [LF; CR] password))%Z ->
  is_valid_password libm_log2 password = Ok true.
Proof.
  intros Hw Hf Hp. rewrite is_valid_password_eq, Hw, Hf. cbn [andb negb].
  apply in_length_window_spec in Hw.
  destruct (@scoring_eq (strip [LF; CR] password)) as [H [_ ->]]; [lia |].
  f_equal. apply Z.leb_le.
  pose proof (entropy_points_range (strip [LF; CR] password) H). lia.
Qed.

Lemma rejected_by_points (password : str) :
  in_length_window (strip [LF; CR] password) = true ->
  fatal (strip [LF; CR] password) = false ->
  (score_points (strip [LF; CR] password) < 2)%Z ->
  is_valid_password libm_log2 password = Ok false.
Proof.
  intros Hw Hf Hp. rewrite is_valid_password_eq, Hw, Hf. cbn [andb negb].
  apply in_length_window_spec in Hw.
  destruct (@scoring_eq (strip [LF; CR] password)) as [H [_ ->]]; [lia |].
  f_equal. apply Z.leb_gt.
  pose proof (entropy_points_range (strip [LF; CR] password) H). lia.
Qed.

Lemma rejected_outside (password : str) :
  in_length_window (strip [LF; CR] password) && negb (fatal (strip [LF; CR] password))
  = false ->
  is_valid_password libm_log2 password = Ok false.
Proof. intros H. now rewrite is_valid_password_eq, H. Qed.

(** ** The evaluator never raises *)

Lemma is_valid_password_returns (password : str) :
  exists b, is_valid_password libm_log2 password = Ok b.
Proof.
  rewrite is_valid_password_eq.
  destruct (in_length_window _) eqn:Hw; cbn [andb]; [| now exists false].
  destruct (negb _); [| now exists false].
  apply in_length_window_spec in Hw.
  destruct (@scoring_eq (strip [LF; CR] password)) as [H [_ ->]]; [lia |].
  eauto.
Qed.

(** C8: under the assumption on the C library's [log2],
    [is_valid_password] returns a boolean on every string and raises on
    none.  The division of [ambiguous_ratio] is guarded by
    [max(1, len(text))], so it succeeds on every text, the empty one
    included; the scoring part, which holds the unique-ratio division, is
    reached only for a stripped string of 8 to 128 characters, where that
    division succeeds. *)
Theorem is_valid_password_total :
  (forall password, exists b, is_valid_password libm_log2 password = Ok b)
  /\ (forall text, ambiguous_ratio text = Ok (amb_value text))
  /\ (forall password,
        is_valid_password libm_log2 password
        = if in_length_window (strip [LF; CR] password)
             && negb (fatal (strip [LF; CR] password))
          then scoring libm_log2 (strip [LF; CR] password)
          else Ok false)
  /\ (forall s, in_length_window s = true ->
                8 <= len s
                /\ truediv (distinct s) (len s) = Ok (uniq_value s)).
Proof.
  split; [| split; [| split]].
  - exact is_valid_password_returns.
  - exact ambiguous_ratio_ok.
  - exact is_valid_password_eq.
  - intros s Hw. apply in_length_window_spec in Hw. split; [lia |].
    apply truediv_ok. lia.
Qed.

(** ** The length window *)

(** C3: when the string stripped of leading and trailing carriage returns
    and newlines has fewer than 8 or more than 128 characters,
    [is_valid_password] returns [False]. *)
Theorem outside_length_window_rejected (password : str) :
  len (strip [LF; CR] password) < 8 \/ 128 < len (strip [LF; CR] password) ->
  is_valid_password libm_log2 password = Ok false.
Proof.
  intros H. apply rejected_outside.
  destruct (in_length_window _) eqn:Hw; [| reflexivity].
  apply in_length_window_spec in Hw. lia.
Qed.

(** ** The denylist *)

Lemma COMMON_BAD_edges (token : str) :
  In token COMMON_BAD -> edges_outside [LF; CR] token = true.
Proof.
  assert (H : forallb (edges_outside [LF; CR]) COMMON_BAD = true)
    by (vm_compute; reflexivity).
  rewrite forallb_forall in H. apply H.
Qed.

Lemma fatal_denylisted (s : str) : denylisted s = true -> fatal s = true.
Proof. intros H. unfold fatal. now rewrite H. Qed.

Lemma fatal_sequence (s : str) : looks_like_sequence s 5 = true -> fatal s = true.
Proof. intros H. unfold fatal. rewrite H. now destruct (denylisted s). Qed.

Lemma rejected_fatal (password : str) :
  fatal (strip [LF; CR] password) = true ->
  is_valid_password libm_log2 password = Ok false.
Proof. intros H. apply rejected_outside. rewrite H. apply andb_false_r. Qed.

(** C4: a string whose lowercased form contains one of the 17 tokens of
    [COMMON_BAD] anywhere, as a substring, is rejected. *)
Theorem denylisted_rejected (password token : str) :
  In token COMMON_BAD ->
  str_in token (lower password) = true ->
  is_valid_password libm_log2 password = Ok false
  /\ List.length COMMON_BAD = 17.
Proof.
  intros Hin Hsub. split; [| reflexivity].
  apply rejected_fatal, fatal_denylisted. unfold denylisted.
  apply existsb_exists. exists token. split; [exact Hin |].
  rewrite lower_strip by exact lower_char_newlines.
  apply str_in_spec, strip_keeps_occurrence.
  - now apply COMMON_BAD_edges.
  - now apply str_in_spec.
Qed.

(** ** Appending a sequential run *)

Lemma sequence_12345 (text : str) :
  occurs (lit "12345") text -> looks_like_sequence text 5 = true.
Proof.
  intros Ho. unfold looks_like_sequence.
  assert (Hlen : 5 <= len text).
  { destruct Ho as [pre [post ->]]. rewrite !len_app. simpl. lia. }
  destruct (Nat.ltb_spec (len text) 5); [lia |].
  apply existsb_exists. exists (lit "0123456789"). split.
  - simpl. auto.
  - apply orb_true_iff. left. apply existsb_exists.
    exists (lit "12345"). split.
    + vm_compute. auto.
    + now apply str_in_spec.
Qed.

(** C5: appending ["12345"] to an accepted string gives a rejected one. *)
Theorem appending_12345_rejected (s : str) :
  is_valid_password libm_log2 s = Ok true ->
  is_valid_password libm_log2 (s ++ lit "12345") = Ok false.
Proof.
  intros _. apply rejected_fatal, fatal_sequence, sequence_12345.
  apply strip_keeps_occurrence; [vm_compute; reflexivity |].
  exists s, []. now rewrite app_nil_r.
Qed.

(** ** Worked examples *)

Ltac accept_by_points :=
  apply accepted_by_points;
  [ vm_compute; reflexivity | vm_compute; reflexivity
  | apply Z.leb_le; vm_compute; reflexivity ].

Ltac reject_by_fatal := apply rejected_fatal; vm_compute; reflexivity.

(** C2: the worked examples of the specification: the two accepted
    passwords are accepted and the five rejected ones are rejected. *)
Theorem worked_examples :
  is_valid_password libm_log2 (lit "mintChai#27Drift") = Ok true
  /\ is_valid_password libm_log2 (lit "NovaTrail_19$elm") = Ok true
  /\ is_valid_password libm_log2 (lit "password123") = Ok false
  /\ is_valid_password libm_log2 (lit "11111111") = Ok false
  /\ is_valid_password libm_log2 (lit "O0O0O0O0") = Ok false
  /\ is_valid_password libm_log2 (lit "ABABABAB") = Ok false
  /\ is_valid_password libm_log2 (lit "asdfghjk") = Ok false.
Proof.
  repeat split; first [accept_by_points | reject_by_fatal].
Qed.

(** C9: a string of exactly 8 characters with all four character classes
    and no fatal pattern is accepted: the acceptance path is reachable at
    the minimum length. *)
Theorem minimum_length_accepted :
  exists s : str,
    len s = 8
    /\ char_classes s = (true, true, true, true)
    /\ fatal s = false
    /\ is_valid_password libm_log2 s = Ok true.
Proof.
  exists (lit "Nova_7em"). repeat split; try (vm_compute; reflexivity).
  accept_by_points.
Qed.

(** ** A run of newlines *)

(** C1, at [newline_run_password]: the newline repeats 5 times in a row in
    the stripped string, yet [long_run_same_char] does not fire, since [.]
    matches no newline, and the password is accepted. *)
Theorem newline_run_accepted :
  has_run LF 5 (strip [LF; CR] newline_run_password)
  /\ long_run_same_char (strip [LF; CR] newline_run_password) 4 = false
  /\ is_valid_password libm_log2 newline_run_password = Ok true.
Proof.
  split; [| split].
  - exists (lit "Nova"), (lit "Trail_19$elm"). vm_compute. reflexivity.
  - vm_compute. reflexivity.
  - accept_by_points.
Qed.

(** ** Digits only *)

(** What the character tests say of an ASCII digit. *)
Lemma ascii_digit_classes (c : ascii) :
  between "0" "9" c = true ->
  between "a" "z" c = false /\ between "A" "Z" c = false
  /\ isalnum c = true /\ re_letter c = false.
Proof.
  destruct c as [[] [] [] [] [] [] [] []]; intros H; vm_compute in H;
    try discriminate H; vm_compute; auto.
Qed.

Lemma Forall_lstrip (P : ascii -> Prop) (chars s : str) :
  Forall P s -> Forall P (lstrip chars s).
Proof.
  induction 1 as [|c t Hc Ht IH]; simpl; [constructor |].
  destruct (char_in c chars); [exact IH | now constructor].
Qed.

Lemma Forall_strip (P : ascii -> Prop) (chars s : str) :
  Forall P s -> Forall P (strip chars s).
Proof.
  intros H. unfold strip, rstrip.
  apply Forall_rev, Forall_lstrip, Forall_rev, Forall_lstrip, H.
Qed.

Lemma existsb_none (A : Type) (p : A -> bool) (l : list A) :
  Forall (fun x => p x = false) l -> existsb p l = false.
Proof. induction 1 as [|x l Hx Hl IH]; simpl; [reflexivity | now rewrite Hx]. Qed.

(** A pattern that starts with a class finds no match in a text without a
    character of that class. *)
Lemma re_search_first_class (p : cls) (r : regex) (s : str) :
  Forall (fun c => p c = false) s -> re_search (Seq (Chr p) r) s = false.
Proof.
  induction 1 as [|c t Hc Ht IH]; [reflexivity |].
  cbn [re_search]. rewrite IH. unfold match_here. cbn [rmatch]. now rewrite Hc.
Qed.

(** The pieces of [re.split] are made of characters of the text. *)
Lemma split_loop_Forall (P : ascii -> Prop) (sep : cls) (s : str) :
  Forall P s ->
  forall cur in_sep, Forall P cur ->
    Forall (Forall P) (split_loop sep s cur in_sep).
Proof.
  induction 1 as [|c t Hc Ht IH]; intros cur in_sep Hcur; simpl.
  - constructor; [now apply Forall_rev | constructor].
  - destruct (sep c).
    + destruct in_sep; [now apply IH |].
      constructor; [now apply Forall_rev | apply IH; constructor].
    + apply IH. now constructor.
Qed.

Lemma no_letter_no_word (seg : str) :
  Forall (fun c => re_letter c = false) seg ->
  looks_like_word_segment seg = false.
Proof.
  intros H. unfold looks_like_word_segment, re_sub_keep.
  replace (filter re_letter seg) with (@nil ascii); [reflexivity |].
  induction H as [|c t Hc Ht IH]; simpl; [reflexivity | now rewrite Hc].
Qed.

Lemma no_letter_no_wordish (text : str) :
  Forall (fun c => re_letter c = false) text ->
  Forall (fun c => between "A" "Z" c = false) text ->
  wordish_presence text = false.
Proof.
  intros Hl Hu. unfold wordish_presence.
  rewrite existsb_none.
  - unfold re_camel. now rewrite re_search_first_class.
  - unfold re_split_plus.
    assert (Hs := @split_loop_Forall _ re_separator text Hl [] false
                    (Forall_nil _)).
    eapply Forall_impl; [| exact Hs]. exact no_letter_no_word.
Qed.

Lemma no_letter_no_interior (text : str) :
  Forall (fun c => re_letter c = false) text ->
  non_edge_digit_symbol text = false.
Proof.
  intros H. unfold non_edge_digit_symbol.
  now rewrite !re_search_first_class.
Qed.

Lemma digits_class_points (s : str) :
  Forall (fun c => between "0" "9" c = true) s -> class_points s = (-3)%Z.
Proof.
  intros H. unfold class_points, class_count, char_classes.
  rewrite (@existsb_none _ (between "a" "z")), (@existsb_none _ (between "A" "Z")),
    (@existsb_none _ (fun c => negb (isalnum c) && negb (isspace c))).
  - destruct (existsb isdigit s); reflexivity.
  - eapply Forall_impl; [| exact H]. intros c Hc.
    destruct (ascii_digit_classes c Hc) as (_ & _ & -> & _). reflexivity.
  - eapply Forall_impl; [| exact H]. intros c Hc.
    now destruct (ascii_digit_classes c Hc) as (_ & -> & _).
  - eapply Forall_impl; [| exact H]. intros c Hc.
    now destruct (ascii_digit_classes c Hc) as (-> & _).
Qed.

(** With the single-class penalty and without the two bonuses that need a
    letter, the rows other than the entropy bonus add up to 0 at most. *)
Lemma digits_score_points (s : str) :
  Forall (fun c => between "0" "9" c = true) s -> (score_points s <= 0)%Z.
Proof.
  intros H. unfold score_points.
  assert (Hl : Forall (fun c => re_letter c = false) s).
  { eapply Forall_impl; [| exact H]. intros c Hc.
    now destruct (ascii_digit_classes c Hc) as (_ & _ & _ & ->). }
  assert (Hu : Forall (fun c => between "A" "Z" c = false) s).
  { eapply Forall_impl; [| exact H]. intros c Hc.
    now destruct (ascii_digit_classes c Hc) as (_ & -> & _). }
  rewrite digits_class_points, no_letter_no_wordish, no_letter_no_interior
    by assumption.
  unfold length_points, uniq_points, amb_points, row.
  repeat match goal with |- context [if ?c then _ else _] => destruct c end;
    lia.
Qed.

(** C10: a password made of ASCII digits only is rejected: no
    word-likeness or interior-placement bonus is available, the class
    penalty of -3 applies, and what length (+2), unique ratio (+1) and
    entropy (+1) can add leaves the score at 1 at most, below 3. *)
Theorem digits_only_rejected (password : str) :
  Forall (fun c => between "0" "9" c = true) password ->
  is_valid_password libm_log2 password = Ok false
  /\ wordish_presence (strip [LF; CR] password) = false
  /\ non_edge_digit_symbol (strip [LF; CR] password) = false
  /\ class_points (strip [LF; CR] password) = (-3)%Z
  /\ forall H,
       (score_points (strip [LF; CR] password)
        + entropy_points (strip [LF; CR] password) H <= 1)%Z.
Proof.
  intros H.
  assert (Hs := @Forall_strip _ [LF; CR] password H).
  pose proof (digits_score_points Hs) as Hp.
  assert (Hl : Forall (fun c => re_letter c = false) (strip [LF; CR] password)).
  { eapply Forall_impl; [| exact Hs]. intros c Hc.
    now destruct (ascii_digit_classes c Hc) as (_ & _ & _ & ->). }
  assert (Hu : Forall (fun c => between "A" "Z" c = false)
                 (strip [LF; CR] password)).
  { eapply Forall_impl; [| exact Hs]. intros c Hc.
    now destruct (ascii_digit_classes c Hc) as (_ & -> & _). }
  repeat split.
  - destruct (in_length_window (strip [LF; CR] password)) eqn:Hw;
      [| now apply rejected_outside; rewrite Hw].
    destruct (fatal (strip [LF; CR] password)) eqn:Hf;
      [now apply rejected_fatal |].
    apply rejected_by_points; try assumption. lia.
  - now apply no_letter_no_wordish.
  - now apply no_letter_no_interior.
  - now apply digits_class_points.
  - intros E. pose proof (entropy_points_range (strip [LF; CR] password) E).
    lia.
Qed.

(** ** The examples of the docstring *)

(** X4: the docstring of [is_valid_password] lists ten accepted and ten
    rejected passwords: the function agrees on all twenty. *)
Theorem docstring_examples :
  Forall (fun p => is_valid_password libm_log2 (lit p) = Ok true)
    [ "mintChai#27Drift"; "QuietLake_204"; "Paper-Plane3!oak";
      "Granite*fox4River"; "Sparrow7!maple"; "NovaTrail_19$elm";
      "copperLeaf@82Walk"; "nerdyCamel12!rope"; "ByteGarden-31%wave";
      "Himalaya!leaf82" ]%string
  /\ Forall (fun p => is_valid_password libm_log2 (lit p) = Ok false)
       [ "password123"; "qwerty2024"; "asdfghjk"; "11111111"; "O0O0O0O0";
         "ABABABAB"; "letmein"; "iloveyou1"; "admin2021"; "user@123" ]%string.
Proof.
  split; repeat constructor;
    first [ accept_by_points | apply rejected_outside; vm_compute; reflexivity ].
Qed.

(** ** Stripping twice *)

(** X5: the verdict depends on the stripped string only: stripping the
    carriage returns and newlines before the call changes nothing. *)
Theorem stripped_before_call (password : str) :
  is_valid_password libm_log2 (strip [LF; CR] password)
  = is_valid_password libm_log2 password.
Proof. now rewrite !is_valid_password_eq, strip_idem. Qed.

(** ** The decision as a whole *)

(** X1: [is_valid_password] answers [True] iff the stripped string has 8 to
    128 characters, shows no fatal pattern, and the rows of the signal table,
    the entropy bonus included, add up to 3 at least; it answers [False] in
    every other case. *)
Theorem accepted_iff (password : str) :
  (is_valid_password libm_log2 password = Ok true
   <-> in_length_window (strip [LF; CR] password) = true
       /\ fatal (strip [LF; CR] password) = false
       /\ exists H,
            shannon_entropy_per_char libm_log2 (strip [LF; CR] password) = Ok H
            /\ (3 <= score_points (strip [LF; CR] password)
                      + entropy_points (strip [LF; CR] password) H)%Z)
  /\ (is_valid_password libm_log2 password = Ok true
      \/ is_valid_password libm_log2 password = Ok false).
Proof.
  split.
  - rewrite is_valid_password_eq.
    destruct (in_length_window _) eqn:Hw; cbn [andb];
      [| split; [discriminate | intros [? _]; discriminate]].
    destruct (fatal _) eqn:Hf; cbn [negb];
      [split; [discriminate | intros (_ & ? & _); discriminate] |].
    pose proof (proj1 (in_length_window_spec _) Hw) as Hlen.
    destruct (@scoring_eq (strip [LF; CR] password)) as (H & HH & ->); [lia |].
    split.
    + intros E. injection E as E. apply Z.leb_le in E. eauto.
    + intros (_ & _ & H' & HH' & Hp). rewrite HH in HH'. injection HH' as <-.
      f_equal. now apply Z.leb_le.
  - destruct (is_valid_password_returns password) as [[|] ->]; auto.
Qed.

End Properties.

(** ** Character classes *)

(** C6 fails as stated: superscript two sets the digit flag without being
    an ASCII digit, and e-acute, a letter outside ASCII that is neither an
    ASCII letter or digit nor ASCII whitespace, does not set the symbol
    flag. *)
Lemma char_classes_not_ascii :
  (flag_digit (char_classes [chr 178]) = true
   /\ existsb ascii_digit [chr 178] = false)
  /\ (isalpha (chr 233) = true
      /\ between (chr 128) (chr 255) (chr 233) = true
      /\ existsb (fun c => negb (ascii_alnum c) && negb (ascii_space c))
           [chr 233] = true
      /\ flag_symbol (char_classes [chr 233]) = false).
Proof. vm_compute. repeat split. Qed.

Lemma isdigit_spec (c : ascii) :
  isdigit c = between "0" "9" c || char_in c [chr 178; chr 179; chr 185].
Proof. destruct c as [[] [] [] [] [] [] [] []]; vm_compute; reflexivity. Qed.

Lemma letter_flags (c : ascii) :
  isalpha c = true ->
  isdigit c = false /\ isalnum c = true
  /\ (between (chr 128) (chr 255) c = true ->
      between "a" "z" c = false /\ between "A" "Z" c = false).
Proof.
  destruct c as [[] [] [] [] [] [] [] []]; intros H; vm_compute in H;
    try discriminate H; vm_compute; repeat split; auto; discriminate.
Qed.

(** C6, amended: the digit flag is set iff some character satisfies
    [str.isdigit], that is, is an ASCII digit or one of the superscript
    digits U+00B2, U+00B3, U+00B9; the symbol flag is set iff some character
    is neither alphanumeric nor whitespace for [str.isalnum] and
    [str.isspace]; a letter outside ASCII is alphanumeric, so it is not a
    symbol, and alone it sets none of the four flags. *)
Theorem char_classes_flags (text : str) :
  (flag_digit (char_classes text) = true
   <-> exists c, In c text
                 /\ (between "0" "9" c
                     || char_in c [chr 178; chr 179; chr 185]) = true)
  /\ (flag_symbol (char_classes text) = true
      <-> exists c, In c text /\ isalnum c = false /\ isspace c = false)
  /\ (forall c, isalpha c = true -> between (chr 128) (chr 255) c = true ->
                negb (isalnum c) && negb (isspace c) = false
                /\ char_classes [c] = (false, false, false, false)).
Proof.
  split; [| split].
  - unfold char_classes, flag_digit. cbn [fst snd].
    rewrite existsb_exists. split; intros [c [Hin Hc]]; exists c;
      (split; [exact Hin |]); [now rewrite <- isdigit_spec | now rewrite isdigit_spec].
  - unfold char_classes, flag_symbol. cbn [snd].
    rewrite existsb_exists. split.
    + intros [c [Hin Hc]]. exists c. apply andb_true_iff in Hc as [H1 H2].
      now rewrite negb_true_iff in H1, H2.
    + intros [c [Hin [H1 H2]]]. exists c. now rewrite H1, H2.
  - intros c Ha Hn. destruct (letter_flags c Ha) as (Hd & Hal & Hr).
    destruct (Hr Hn) as [Hlo Hup]. split; [now rewrite Hal |].
    unfold char_classes. cbn [existsb]. now rewrite Hlo, Hup, Hd, Hal.
Qed.

(** ** Periodic strings *)

(** The source tries the periods below the length only,
    [range(1, min(4, n))]: a text of 1, 2 or 3 characters that is one copy
    of itself, as ["ab"], gets [False]. *)
Lemma repeating_substring_whole_unit :
  repeating_substring (lit "ab") = false
  /\ exists m unit,
       In m [1; 2; 3] /\ len unit = m /\ len (lit "ab") mod m = 0
       /\ lit "ab" = str_mul unit (len (lit "ab") / m).
Proof.
  split; [vm_compute; reflexivity |].
  exists 2, (lit "ab"). vm_compute. auto 6.
Qed.

Lemma slice_prefix (unit rest : str) :
  slice (unit ++ rest) 0 (len unit) = unit.
Proof.
  unfold slice, len. rewrite Nat.sub_0_r. cbn [skipn].
  rewrite firstn_app, Nat.sub_diag, firstn_all. cbn [firstn]. apply app_nil_r.
Qed.

(** On every text, [repeating_substring] answers [True] iff the text is a
    unit of length 1, 2 or 3, shorter than the text and dividing its
    length, repeated to fill it. *)
Lemma repeating_substring_spec (text : str) :
  repeating_substring text = true
  <-> exists m unit,
        In m [1; 2; 3] /\ m < len text /\ len unit = m
        /\ len text mod m = 0
        /\ text = str_mul unit (len text / m).
Proof.
  unfold repeating_substring. cbv zeta. rewrite existsb_exists. split.
  - intros [m [Hin Hm]]. apply in_seq in Hin.
    apply andb_true_iff in Hm as [Hmod Heq].
    apply Nat.eqb_eq in Hmod. apply str_eqb_eq in Heq.
    exists m, (slice text 0 m). repeat split; try assumption.
    + destruct m as [|[|[|[|m]]]]; simpl; auto; lia.
    + lia.
    + unfold slice, len. rewrite Nat.sub_0_r. cbn [skipn].
      apply firstn_length_le. unfold len in Hin. lia.
  - intros (m & unit & Hin & Hlt & Hlen & Hmod & Heq).
    assert (Hm : 1 <= m <= 3) by (simpl in Hin; lia).
    exists m. split; [apply in_seq; lia |].
    apply andb_true_iff. split; [now apply Nat.eqb_eq |].
    apply str_eqb_eq.
    assert (Hk : len text / m <> 0).
    { intros Hz. apply Nat.div_small_iff in Hz; lia. }
    destruct (len text / m) as [|k] eqn:Ek; [contradiction |].
    replace (slice text 0 m) with unit; [exact Heq |].
    rewrite Heq at 1. cbn [str_mul]. rewrite <- Hlen. symmetry.
    apply slice_prefix.
Qed.

(** C7: [is_valid_password] calls [repeating_substring] on the stripped
    string, of 8 to 128 characters.  On every text of 4 characters or more
    [repeating_substring] answers [True] iff the text is some unit of length
    [m] in 1, 2, 3, with [m] dividing the length of the text, repeated
    length / [m] times to fill the text: the text is exactly periodic with
    a short period. *)
Theorem repeating_substring_periodic (text : str) :
  4 <= len text ->
  (repeating_substring text = true
   <-> exists m unit,
         In m [1; 2; 3] /\ len unit = m /\ len text mod m = 0
         /\ text = str_mul unit (len text / m)).
Proof.
  intros Hlen. rewrite repeating_substring_spec. split.
  - intros (m & unit & Hin & _ & H). now exists m, unit.
  - intros (m & unit & Hin & H). exists m, unit.
    split; [exact Hin | split; [| exact H]].
    simpl in Hin. lia.
Qed.

(** ** The theorems at concrete inputs

    [log2_interp] stands for the C library's [log2]: it returns finite
    numbers only. *)

Lemma log2_interp_finite (x : float) :
  (0 <? x)%float = true -> is_finite x = true ->
  is_finite (log2_interp x) = true.
Proof.
  intros _ _. unfold log2_interp. destruct (frshiftexp x) as [m e].
  cbv zeta.
  destruct (is_finite (of_uint63 e - 2101 + (2 * m - 2))%float) eqn:E;
    [exact E | reflexivity].
Qed.

Lemma is_valid_password_total_witness :
  (exists b, is_valid_password log2_interp [chr 233; LF] = Ok b)
  /\ (exists b, is_valid_password log2_interp (lit "caf" ++ chr 233 :: lit "_Mocha7") = Ok b).
Proof.
  split;
    apply (proj1 (@is_valid_password_total log2_interp log2_interp_finite)).
Defined.

Lemma outside_length_window_rejected_witness :
  len (strip [LF; CR] (lit "Ab1!x" ++ [CR; LF])) < 8
  /\ is_valid_password log2_interp (lit "Ab1!x" ++ [CR; LF]) = Ok false.
Proof.
  assert (H : len (strip [LF; CR] (lit "Ab1!x" ++ [CR; LF])) < 8)
    by (vm_compute; lia).
  split; [exact H |].
  apply (@outside_length_window_rejected log2_interp _ (or_introl H)).
Defined.

Lemma denylisted_rejected_witness :
  str_in (lit "password") (lower (lit "MyPassWord_99x")) = true
  /\ is_valid_password log2_interp (lit "MyPassWord_99x") = Ok false.
Proof.
  assert (H : str_in (lit "password") (lower (lit "MyPassWord_99x")) = true)
    by (vm_compute; reflexivity).
  split; [exact H |].
  apply (@denylisted_rejected log2_interp (lit "MyPassWord_99x") (lit "password"));
    [simpl; auto | exact H].
Defined.

Lemma appending_12345_rejected_witness :
  is_valid_password log2_interp (lit "mintChai#27Drift") = Ok true
  /\ is_valid_password log2_interp (lit "mintChai#27Drift" ++ lit "12345")
     = Ok false.
Proof.
  assert (H : is_valid_password log2_interp (lit "mintChai#27Drift") = Ok true)
    by (vm_compute; reflexivity).
  split; [exact H |].
  apply (@appending_12345_rejected log2_interp _ H).
Defined.

Lemma worked_examples_witness :
  is_valid_password log2_interp (lit "mintChai#27Drift") = Ok true
  /\ is_valid_password log2_interp (lit "asdfghjk") = Ok false.
Proof.
  pose proof (@worked_examples log2_interp log2_interp_finite) as H.
  split; [apply H | apply H].
Defined.

Lemma minimum_length_accepted_witness :
  exists s : str,
    len s = 8 /\ is_valid_password log2_interp s = Ok true.
Proof.
  destruct (@minimum_length_accepted log2_interp log2_interp_finite)
    as (s & Hlen & _ & _ & Hs).
  exists s. split; assumption.
Defined.

Lemma newline_run_accepted_witness :
  is_valid_password log2_interp newline_run_password = Ok true.
Proof.
  apply (@newline_run_accepted log2_interp log2_interp_finite).
Defined.

Lemma digits_only_rejected_witness :
  Forall (fun c => between "0" "9" c = true) (lit "4815162342")
  /\ is_valid_password log2_interp (lit "4815162342") = Ok false.
Proof.
  assert (H : Forall (fun c => between "0" "9" c = true) (lit "4815162342"))
    by (repeat constructor).
  split; [exact H |].
  apply (proj1 (@digits_only_rejected log2_interp log2_interp_finite _ H)).
Defined.

Lemma char_classes_flags_witness :
  negb (isalnum (chr 233)) && negb (isspace (chr 233)) = false
  /\ char_classes [chr 233] = (false, false, false, false).
Proof.
  apply (proj2 (proj2 (char_classes_flags [chr 233])));
    vm_compute; reflexivity.
Defined.

Lemma repeating_substring_periodic_witness :
  4 <= len (lit "abcabcabc")
  /\ repeating_substring (lit "abcabcabc") = true.
Proof.
  assert (H : 4 <= len (lit "abcabcabc")) by (vm_compute; lia).
  split; [exact H |].
  apply (proj2 (@repeating_substring_periodic (lit "abcabcabc") H)).
  exists 3, (lit "abc"). vm_compute. repeat split; auto.
Defined.

Lemma accepted_iff_witness :
  in_length_window (strip [LF; CR] (lit "NovaTrail_19$elm")) = true
  /\ fatal (strip [LF; CR] (lit "NovaTrail_19$elm")) = false.
Proof.
  assert (H : is_valid_password log2_interp (lit "NovaTrail_19$elm") = Ok true)
    by (vm_compute; reflexivity).
  destruct (proj1 (proj1 (@accepted_iff log2_interp log2_interp_finite _)) H)
    as (Hw & Hf & _).
  split; assumption.
Defined.

Lemma ratio_thresholds_exact_witness :
  (0.55 <? amb_value (lit "O0O0O0O0x"))%float = true.
Proof.
  rewrite (proj1 (@ratio_thresholds_exact (lit "O0O0O0O0x") eq_refl)).
  vm_compute. reflexivity.
Defined.

Lemma long_run_same_char_spec_witness :
  long_run_same_char (lit "xaaaaay") 4 = true.
Proof.
  apply (proj2 (long_run_same_char_spec (lit "xaaaaay") 4)).
  exists "a"%char. split; [discriminate |].
  exists (lit "x"), (lit "y"). reflexivity.
Defined.

Lemma docstring_examples_witness :
  is_valid_password log2_interp (lit "QuietLake_204") = Ok true.
Proof.
  pose proof (proj1 (@docstring_examples log2_interp log2_interp_finite)) as H.
  rewrite Forall_forall in H. apply H. simpl. auto.
Defined.

Lemma fatal_run_is_scored_run_witness :
  looks_like_sequence (lit "xx56789yy") 4 = true.
Proof.
  apply (proj1 (fatal_run_is_scored_run (lit "xx56789yy"))).
  vm_compute. reflexivity.
Defined.

(** * More on the helper closures *)

(** ** Searching with a pattern *)

(** [re.search] succeeds iff the pattern matches at the head of some
    suffix. *)
Lemma re_search_spec (r : regex) (s : str) :
  re_search r s = true
  <-> exists pre suf, s = pre ++ suf /\ match_here r suf = true.
Proof.
  induction s as [|c t IH]; cbn [re_search].
  - rewrite orb_false_r. split.
    + intros H. now exists [], [].
    + intros (pre & suf & E & H). symmetry in E.
      apply app_eq_nil in E as [_ ->]. exact H.
  - rewrite orb_true_iff, IH. split.
    + intros [H | (pre & suf & -> & H)].
      * now exists [], (c :: t).
      * now exists (c :: pre), suf.
    + intros (pre & suf & E & H). destruct pre as [|x pre].
      * left. simpl in E. now rewrite E.
      * right. injection E as _ ->. now exists pre, suf.
Qed.

Lemma match_here_triple (p q r : cls) (s : str) :
  match_here (Seq (Chr p) (Seq (Chr q) (Chr r))) s
  = match s with
    | a :: b :: c :: _ => p a && (q b && r c)
    | _ => false
    end.
Proof.
  unfold match_here.
  destruct s as [|a [|b [|c t]]]; cbn [rmatch];
    rewrite ?andb_false_r, ?andb_true_r; reflexivity.
Qed.

Lemma re_search_triple (p q r : cls) (s : str) :
  re_search (Seq (Chr p) (Seq (Chr q) (Chr r))) s = true
  <-> exists pre a b c post,
        s = pre ++ a :: b :: c :: post
        /\ p a = true /\ q b = true /\ r c = true.
Proof.
  rewrite re_search_spec. split.
  - intros (pre & suf & -> & H). rewrite match_here_triple in H.
    destruct suf as [|a [|b [|c post]]]; try discriminate.
    apply andb_true_iff in H as [Ha H]. apply andb_true_iff in H as [Hb Hc].
    now exists pre, a, b, c, post.
  - intros (pre & a & b & c & post & -> & Ha & Hb & Hc).
    exists pre, (a :: b :: c :: post). split; [reflexivity |].
    rewrite match_here_triple. now rewrite Ha, Hb, Hc.
Qed.

(** ** A digit or symbol between two letters *)

Lemma middle_class (b : ascii) :
  between "0" "9" b
  || none_of [between "A" "Z"; between "a" "z"; between "0" "9"] b
  = negb (re_letter b).
Proof. destruct b as [[] [] [] [] [] [] [] []]; vm_compute; reflexivity. Qed.

(** X7: [non_edge_digit_symbol] holds iff the text has two ASCII letters
    with exactly one character that is not an ASCII letter between them; a
    longer group between the letters, as the [#27] of
    ["mintChai#27Drift"], does not count. *)
Theorem non_edge_digit_symbol_spec (text : str) :
  (non_edge_digit_symbol text = true
   <-> exists pre a b c post,
         text = pre ++ a :: b :: c :: post
         /\ re_letter a = true /\ re_letter b = false /\ re_letter c = true)
  /\ non_edge_digit_symbol (lit "mintChai#27Drift") = false.
Proof.
  split; [| vm_compute; reflexivity].
  unfold non_edge_digit_symbol.
  rewrite orb_true_iff, !re_search_triple. split.
  - intros [H | H]; destruct H as (pre & a & b & c & post & E & Ha & Hb & Hc);
      exists pre, a, b, c, post; repeat split; try assumption;
      apply negb_true_iff; rewrite <- middle_class, Hb;
      [reflexivity | apply orb_true_r].
  - intros (pre & a & b & c & post & E & Ha & Hb & Hc).
    apply negb_true_iff in Hb. rewrite <- middle_class in Hb.
    apply orb_true_iff in Hb as [Hb | Hb]; [left | right];
      now exists pre, a, b, c, post.
Qed.

(** ** Word-like segments *)

Lemma consonant_classes (c : ascii) :
  re_consonant c = true ->
  isalpha c && negb (str_in [lower_char c] (lit "aeiou")) = true.
Proof.
  destruct c as [[] [] [] [] [] [] [] []]; intros H; vm_compute in H;
    try discriminate H; vm_compute; reflexivity.
Qed.

(** X8: [looks_like_word_segment] looks at the ASCII letters of the segment
    only: it holds iff there are at least 4 of them and, among them, a
    consonant, a vowel and a consonant follow one another.  Digits and
    symbols inside the segment are skipped. *)
Theorem looks_like_word_segment_spec (seg : str) :
  looks_like_word_segment seg = true
  <-> 4 <= len (filter re_letter seg)
      /\ exists pre c1 v c2 post,
           filter re_letter seg = pre ++ c1 :: v :: c2 :: post
           /\ re_consonant c1 = true /\ re_vowel v = true
           /\ re_consonant c2 = true.
Proof.
  unfold looks_like_word_segment, re_sub_keep. cbv zeta.
  destruct (Nat.ltb_spec (len (filter re_letter seg)) 4) as [Hlt | Hge].
  - split; [discriminate | intros [H _]; lia].
  - rewrite !andb_true_iff, re_search_triple. split.
    + intros [_ H]. split; [exact Hge | exact H].
    + intros [_ H]. split; [| exact H].
      destruct H as (pre & c1 & v & c2 & post & E & H1 & Hv & H2).
      rewrite E. split.
      * apply re_search_spec. exists (pre ++ [c1]), (v :: c2 :: post).
        split; [now rewrite <- app_assoc |].
        unfold match_here. cbn [rmatch]. now rewrite Hv.
      * apply existsb_exists. exists c1. split.
        -- apply in_or_app. right. now left.
        -- now apply consonant_classes.
Qed.

(** ** Year suffixes *)

Lemma match_here_year (s : str) :
  match_here re_year s
  = match s with
    | a :: b :: c :: d :: rest => year_like [a; b; c; d] && at_eol rest
    | _ => false
    end.
Proof.
  unfold match_here, re_year, year_like, one_of.
  destruct s as [|a [|b [|c [|d rest]]]]; cbn [rmatch lit list_ascii_of_string char_in existsb];
    rewrite ?orb_false_r, ?andb_false_r, ?andb_true_r; try reflexivity.
  destruct (Ascii.eqb a "1"), (Ascii.eqb b "9"), (Ascii.eqb a "2"),
    (Ascii.eqb b "0"), (re_d c), (re_d d), (between "0" "3" c), (at_eol rest);
    reflexivity.
Qed.

(** X9: [has_year_like_suffix] holds iff the text ends with a year from
    1900 to 2039, or with such a year and one newline after it (the [$] of
    the pattern also matches before a final newline). *)
Theorem has_year_like_suffix_spec (text : str) :
  has_year_like_suffix text = true
  <-> exists pre y,
        year_like y = true /\ (text = pre ++ y \/ text = pre ++ y ++ [LF]).
Proof.
  unfold has_year_like_suffix. rewrite re_search_spec. split.
  - intros (pre & suf & -> & H). rewrite match_here_year in H.
    destruct suf as [|a [|b [|c [|d rest]]]]; try discriminate.
    apply andb_true_iff in H as [Hy He].
    exists pre, [a; b; c; d]. split; [exact Hy |].
    destruct rest as [|x [|x' rest]]; try discriminate.
    + now left.
    + right. apply Ascii.eqb_eq in He. now subst x.
  - intros (pre & y & Hy & E).
    destruct y as [|a [|b [|c [|d [|e y]]]]]; try discriminate.
    destruct E as [-> | ->].
    + exists pre, [a; b; c; d]. split; [reflexivity |].
      rewrite match_here_year, Hy. reflexivity.
    + exists pre, [a; b; c; d; LF]. split; [reflexivity |].
      rewrite match_here_year, Hy. reflexivity.
Qed.

(** ** Sequential and keyboard runs *)

(** The windows of length [n] of [r] are its substrings of length [n]. *)
Lemma windows_spec (r : str) (n : nat) (w : str) :
  In w (windows r n) <-> len w = n /\ occurs w r.
Proof.
  unfold windows, range, slice. rewrite in_map_iff, Nat.sub_0_r. split.
  - intros (i & <- & Hi). apply in_seq in Hi.
    replace (i + n - i) with n by lia. split.
    + unfold len. rewrite length_firstn, length_skipn. unfold len in Hi. lia.
    + exists (firstn i r), (skipn n (skipn i r)).
      now rewrite !firstn_skipn.
  - intros (Hn & pre & post & ->). exists (List.length pre). split.
    + replace (List.length pre + n - List.length pre) with n by lia.
      rewrite skipn_app, skipn_all, Nat.sub_diag. cbn [skipn app].
      rewrite <- Hn. unfold len.
      rewrite firstn_app, firstn_all, Nat.sub_diag. cbn [firstn].
      apply app_nil_r.
    + apply in_seq. unfold len in *. rewrite !length_app. lia.
Qed.

Lemma occurs_rev_iff (w text : str) :
  occurs (rev w) (rev text) <-> occurs w text.
Proof.
  split; [| apply occurs_rev].
  intros H. apply occurs_rev in H. now rewrite !rev_involutive in H.
Qed.

Lemma len_rev (w : str) : len (rev w) = len w.
Proof. apply length_rev. Qed.

Lemma len_occurs (w text : str) : occurs w text -> len w <= len text.
Proof. intros (pre & post & ->). rewrite !len_app. lia. Qed.

Lemma sequence_iff (text : str) (n : nat) :
  looks_like_sequence text n = true
  <-> exists r w,
        In r sequence_runs /\ len w = n /\ occurs w text
        /\ (occurs w r \/ occurs w (rev r)).
Proof.
  unfold looks_like_sequence. fold sequence_runs.
  destruct (Nat.ltb_spec (len text) n) as [Hlt | Hge].
  - split; [discriminate |].
    intros (r & w & _ & Hn & Ho & _). apply len_occurs in Ho. lia.
  - cbv zeta. rewrite existsb_exists. split.
    + intros (r & Hr & H). apply orb_true_iff in H.
      destruct H as [H | H]; apply existsb_exists in H as (w & Hw & Hs);
        apply windows_spec in Hw as [Hn Ho]; apply str_in_spec in Hs;
        exists r, w; auto.
    + intros (r & w & Hr & Hn & Ho & H). exists r. split; [exact Hr |].
      apply orb_true_iff.
      destruct H as [H | H]; [left | right]; apply existsb_exists;
        exists w; (split; [now apply windows_spec | now apply str_in_spec]).
Qed.

Lemma keyboard_iff (text : str) (n : nat) :
  has_keyboard_run text n = true
  <-> exists row w,
        In row keyboard_rows /\ len w = n /\ occurs w (lower text)
        /\ (occurs w row \/ occurs w (rev row)).
Proof.
  unfold has_keyboard_run. fold keyboard_rows. cbv zeta.
  rewrite existsb_exists. split.
  - intros (row & Hr & H). apply existsb_exists in H as (seg & Hw & Hs).
    apply windows_spec in Hw as [Hn Ho]. apply orb_true_iff in Hs.
    destruct Hs as [Hs | Hs]; apply str_in_spec in Hs.
    + exists row, seg. auto.
    + exists row, (rev seg). rewrite len_rev. repeat split; auto.
      right. now apply occurs_rev.
  - intros (row & w & Hr & Hn & Ho & H). exists row. split; [exact Hr |].
    apply existsb_exists. destruct H as [H | H].
    + exists w. split; [now apply windows_spec |].
      apply orb_true_iff. left. now apply str_in_spec.
    + exists (rev w). split.
      * apply windows_spec. rewrite len_rev. split; [exact Hn |].
        apply occurs_rev in H. now rewrite rev_involutive in H.
      * apply orb_true_iff. right. rewrite rev_involutive.
        now apply str_in_spec.
Qed.

(** X10: [looks_like_sequence(text, n)] holds iff [text] has a substring of
    [n] characters that is also a substring of the lowercase alphabet, the
    uppercase alphabet or the digits, read forwards or backwards;
    [has_keyboard_run(text, n)] holds iff the lowercased text has a
    substring of [n] characters that is a substring of a keyboard row, read
    forwards or backwards. *)
Theorem run_detectors_spec (text : str) (n : nat) :
  (looks_like_sequence text n = true
   <-> exists r w,
         In r sequence_runs /\ len w = n /\ occurs w text
         /\ (occurs w r \/ occurs w (rev r)))
  /\ (has_keyboard_run text n = true
      <-> exists row w,
            In row keyboard_rows /\ len w = n /\ occurs w (lower text)
            /\ (occurs w row \/ occurs w (rev row))).
Proof. split; [apply sequence_iff | apply keyboard_iff]. Qed.

Lemma bool_eq_iff (a b : bool) : (a = true <-> b = true) -> a = b.
Proof.
  destruct a, b; intros [H1 H2]; try reflexivity;
    [symmetry; now apply H1 | now apply H2].
Qed.

(** X11: [looks_like_sequence] gives the same answer on a text and on the
    text read backwards.  [has_keyboard_run] looks at the lowercased text
    only, and gives the same answer on two texts whose lowercased forms are
    the reverse of one another. *)
Theorem run_detectors_reverse (text : str) (n : nat) :
  looks_like_sequence (rev text) n = looks_like_sequence text n
  /\ forall text',
       lower text' = rev (lower text) ->
       has_keyboard_run text' n = has_keyboard_run text n.
Proof.
  split; [| intros text' Hlow]; apply bool_eq_iff.
  - rewrite !sequence_iff. split.
    + intros (r & w & Hr & Hn & Ho & H). exists r, (rev w).
      rewrite len_rev. repeat split; auto.
      * apply occurs_rev in Ho. now rewrite rev_involutive in Ho.
      * destruct H as [H | H]; [right | left].
        -- now apply occurs_rev.
        -- apply occurs_rev in H. now rewrite rev_involutive in H.
    + intros (r & w & Hr & Hn & Ho & H). exists r, (rev w).
      rewrite len_rev. repeat split; auto.
      * now apply occurs_rev.
      * destruct H as [H | H]; [right | left].
        -- now apply occurs_rev.
        -- apply occurs_rev in H. now rewrite rev_involutive in H.
  - rewrite !keyboard_iff, Hlow. split.
    + intros (r & w & Hr & Hn & Ho & H). exists r, (rev w).
      rewrite len_rev. repeat split; auto.
      * apply occurs_rev in Ho. now rewrite rev_involutive in Ho.
      * destruct H as [H | H]; [right | left].
        -- now apply occurs_rev.
        -- apply occurs_rev in H. now rewrite rev_involutive in H.
    + intros (r & w & Hr & Hn & Ho & H). exists r, (rev w).
      rewrite len_rev. repeat split; auto.
      * now apply occurs_rev.
      * destruct H as [H | H]; [right | left].
        -- now apply occurs_rev.
        -- apply occurs_rev in H. now rewrite rev_involutive in H.
Qed.

(** ** The frequency table of the entropy *)

Lemma freq_get_incr_same (ch : ascii) (freq : list (ascii * nat)) :
  freq_get (dict_incr ch freq) ch = S (freq_get freq ch).
Proof.
  unfold freq_get. induction freq as [|[key c] rest IH]; simpl.
  - now rewrite Ascii.eqb_refl.
  - destruct (Ascii.eqb key ch) eqn:E; simpl; rewrite E; [reflexivity | exact IH].
Qed.

Lemma freq_get_incr_other (ch ch' : ascii) (freq : list (ascii * nat)) :
  ch <> ch' -> freq_get (dict_incr ch freq) ch' = freq_get freq ch'.
Proof.
  intros Hne. unfold freq_get. induction freq as [|[key c] rest IH]; simpl.
  - apply Ascii.eqb_neq in Hne. now rewrite Hne.
  - destruct (Ascii.eqb key ch) eqn:E; simpl.
    + apply Ascii.eqb_eq in E. subst key.
      apply Ascii.eqb_neq in Hne. now rewrite Hne.
    + destruct (Ascii.eqb key ch'); [reflexivity | exact IH].
Qed.

Lemma dict_incr_keys (ch k : ascii) (freq : list (ascii * nat)) :
  In k (map fst (dict_incr ch freq)) <-> k = ch \/ In k (map fst freq).
Proof.
  induction freq as [|[key c] rest IH]; simpl.
  - intuition.
  - destruct (Ascii.eqb_spec key ch) as [-> | Hne]; simpl.
    + intuition.
    + rewrite IH. intuition.
Qed.

Lemma dict_incr_NoDup (ch : ascii) (freq : list (ascii * nat)) :
  NoDup (map fst freq) -> NoDup (map fst (dict_incr ch freq)).
Proof.
  induction freq as [|[key c] rest IH]; simpl; intros H.
  - constructor; [intros [] | constructor].
  - inversion H as [|? ? Hnotin Hrest]; subst.
    destruct (Ascii.eqb_spec key ch) as [-> | Hne]; simpl.
    + now constructor.
    + constructor; [| now apply IH].
      rewrite dict_incr_keys. intros [-> | Hin]; [now apply Hne | now apply Hnotin].
Qed.

Lemma fold_dict_incr_spec (text : str) :
  forall freq,
    NoDup (map fst freq) ->
    let final := fold_left (fun freq ch => dict_incr ch freq) text freq in
    NoDup (map fst final)
    /\ (forall ch,
          freq_get final ch = freq_get freq ch + count_occ ascii_dec text ch)
    /\ (forall k, In k (map fst final) <-> In k (map fst freq) \/ In k text).
Proof.
  induction text as [|c t IH]; intros freq Hnd; cbn [fold_left].
  - repeat split; auto; simpl; intuition.
  - destruct (IH (dict_incr c freq) (@dict_incr_NoDup c freq Hnd)) as (H1 & H2 & H3).
    cbv zeta. split; [exact H1 | split].
    + intros ch. rewrite H2. cbn [count_occ].
      destruct (ascii_dec c ch) as [-> | Hne].
      * rewrite freq_get_incr_same. lia.
      * now rewrite freq_get_incr_other.
    + intros k. rewrite H3, dict_incr_keys. simpl. intuition.
Qed.

(** X12: the frequency table built by [shannon_entropy_per_char] has one
    entry per distinct character of the text, and [freq.get(ch, 0)] is the
    number of occurrences of [ch] in the text, for every [ch]; the stored
    counts are at least 1 and add up to the length of the text. *)
Theorem char_freq_spec (text : str) :
  NoDup (map fst (char_freq text))
  /\ (forall ch, freq_get (char_freq text) ch = count_occ ascii_dec text ch)
  /\ List.length (char_freq text) = distinct text
  /\ Forall (fun c => 1 <= c) (map snd (char_freq text))
  /\ list_sum (map snd (char_freq text)) = len text.
Proof.
  destruct (@fold_dict_incr_spec text [] (NoDup_nil _)) as (H1 & H2 & H3).
  cbv zeta in *. fold (char_freq text) in H1, H2, H3.
  split; [exact H1 | split; [exact H2 | split; [| split]]].
  - unfold distinct. rewrite <- (length_map fst).
    apply Nat.le_antisymm; apply NoDup_incl_length;
      try exact H1; try apply NoDup_nodup; intros k Hk.
    + apply nodup_In. apply H3 in Hk. now destruct Hk.
    + apply H3. right. now apply nodup_In in Hk.
  - eapply Forall_impl; [| apply char_freq_counts]. intros c Hc. apply Hc.
  - destruct (@fold_dict_incr text [] (Forall_nil _)) as [_ H].
    fold (char_freq text) in H. exact H.
Qed.

(** ** The ambiguity ratio *)

Lemma ratio_unit_table :
  forallb (fun n => forallb (fun a => ratio_in_unit a n) (seq 0 (S n)))
    (seq 1 128) = true.
Proof. vm_compute. reflexivity. Qed.

Lemma ratio_unit (a n : nat) :
  a <= n -> 1 <= n <= 128 -> ratio_in_unit a n = true.
Proof.
  intros Ha Hn. pose proof ratio_unit_table as T.
  rewrite forallb_forall in T.
  assert (Hin : In n (seq 1 128)) by (apply in_seq; lia).
  specialize (T n Hin). rewrite forallb_forall in T.
  apply T. apply in_seq. lia.
Qed.

Lemma ambiguous_count_filter (text : str) :
  ambiguous_count text = List.length (filter ambiguous text).
Proof.
  unfold ambiguous_count.
  enough (H : forall acc,
             fold_left
               (fun amb ch =>
                  if existsb (fun g => char_in ch g) groups then amb + 1 else amb)
               text acc = acc + List.length (filter ambiguous text))
    by apply (H 0).
  induction text as [|c t IH]; intros acc; cbn [fold_left filter].
  - simpl. lia.
  - rewrite IH. unfold ambiguous at 2.
    destruct (existsb (fun g => char_in c g) groups); simpl; lia.
Qed.

Lemma filter_none (A : Type) (p : A -> bool) (l : list A) :
  List.length (filter p l) = 0 <-> Forall (fun x => p x = false) l.
Proof.
  induction l as [|x l IH]; simpl.
  - split; [constructor | reflexivity].
  - destruct (p x) eqn:E; simpl.
    + split; [discriminate | intros H; inversion H; congruence].
    + rewrite IH. split; [now constructor | intros H; now inversion H].
Qed.

Lemma filter_all (A : Type) (p : A -> bool) (l : list A) :
  List.length (filter p l) = List.length l <-> Forall (fun x => p x = true) l.
Proof.
  induction l as [|x l IH]; simpl.
  - split; [constructor | reflexivity].
  - pose proof (filter_length_le p l) as L.
    destruct (p x) eqn:E; simpl.
    + split.
      * intros H. constructor; [exact E | apply IH; lia].
      * intros H. inversion H; subst. f_equal. now apply IH.
    + split; [lia | intros H; inversion H; congruence].
Qed.

(** X13: on a text of at most 128 characters [ambiguous_ratio] raises
    nothing and returns a number between 0 and 1: 0 exactly when the text
    has no lookalike character (the empty text included, thanks to
    [max(1, len(text))]), and 1 exactly when the text is not empty and every
    character is a lookalike. *)
Theorem ambiguous_ratio_range (text : str) :
  len text <= 128 ->
  exists r,
    ambiguous_ratio text = Ok r
    /\ (0 <=? r)%float = true /\ (r <=? 1)%float = true
    /\ ((r =? 0)%float = true <-> Forall (fun c => ambiguous c = false) text)
    /\ ((r =? 1)%float = true
        <-> text <> [] /\ Forall (fun c => ambiguous c = true) text).
Proof.
  intros Hlen. exists (amb_value text).
  split; [apply ambiguous_ratio_ok |].
  unfold amb_value.
  assert (Hn : 1 <= Nat.max 1 (len text) <= 128) by lia.
  assert (Ha : ambiguous_count text <= Nat.max 1 (len text)).
  { pose proof (ambiguous_count_le text). lia. }
  pose proof (ratio_unit Ha Hn) as R. unfold ratio_in_unit in R.
  cbv zeta in R.
  apply andb_true_iff in R as [R R1]. apply andb_true_iff in R as [R R0].
  apply andb_true_iff in R as [Rge Rle].
  apply eqb_prop in R0, R1. rewrite R0, R1, !Nat.eqb_eq.
  split; [exact Rge | split; [exact Rle | split]].
  - rewrite ambiguous_count_filter. apply filter_none.
  - rewrite ambiguous_count_filter. destruct text as [|c t].
    + simpl. split; [discriminate | intros [H _]; now contradiction H].
    + replace (Nat.max 1 (len (c :: t))) with (List.length (c :: t))
        by (unfold len; simpl; lia).
      rewrite filter_all. split; [intros H; split; [discriminate | exact H] | now intros [_ H]].
Qed.

(** ** Newlines around the password *)

Lemma lstrip_drop (chars pre s : str) :
  Forall (fun c => char_in c chars = true) pre ->
  lstrip chars (pre ++ s) = lstrip chars s.
Proof.
  induction 1 as [|c pre Hc Hpre IH]; simpl; [reflexivity | now rewrite Hc].
Qed.

Lemma lstrip_nil (chars s : str) :
  lstrip chars s = [] -> Forall (fun c => char_in c chars = true) s.
Proof.
  induction s as [|c t IH]; simpl; [constructor |].
  destruct (char_in c chars) eqn:E; [| discriminate].
  intros H. constructor; [exact E | now apply IH].
Qed.

Lemma lstrip_app (chars s x : str) :
  lstrip chars s <> [] -> lstrip chars (s ++ x) = lstrip chars s ++ x.
Proof.
  induction s as [|c t IH]; simpl; [intros H; now contradiction H |].
  destruct (char_in c chars); [exact IH | reflexivity].
Qed.

Lemma rstrip_drop (chars s post : str) :
  Forall (fun c => char_in c chars = true) post ->
  rstrip chars (s ++ post) = rstrip chars s.
Proof.
  intros H. unfold rstrip. rewrite rev_app_distr, lstrip_drop; [reflexivity |].
  now apply Forall_rev.
Qed.

(** Characters of [chars] around a string do not survive [strip]. *)
Lemma strip_surrounded (chars pre s post : str) :
  Forall (fun c => char_in c chars = true) pre ->
  Forall (fun c => char_in c chars = true) post ->
  strip chars (pre ++ s ++ post) = strip chars s.
Proof.
  intros Hpre Hpost. unfold strip. rewrite lstrip_drop by exact Hpre.
  destruct (lstrip chars s) as [|c u] eqn:E.
  - apply lstrip_nil in E.
    rewrite <- (app_nil_r (s ++ post)), lstrip_drop; [reflexivity |].
    apply Forall_app. now split.
  - rewrite lstrip_app by (rewrite E; discriminate).
    rewrite E. now apply rstrip_drop.
Qed.

Section Robustness.

Variable libm_log2 : float -> float.

Hypothesis libm_log2_finite :
  forall x, (0 <? x)%float = true -> is_finite x = true ->
            is_finite (libm_log2 x) = true.

(** X14: [shannon_entropy_per_char] raises nothing on a text of at most
    128 characters: it answers 0.0 for the empty text, and otherwise every
    [p] it hands to [math.log2] is a count between 1 and [len(text)] divided
    by [len(text)], a positive number. *)
Theorem shannon_entropy_never_raises (text : str) :
  len text <= 128 ->
  (exists H, shannon_entropy_per_char libm_log2 text = Ok H)
  /\ shannon_entropy_per_char libm_log2 [] = Ok 0%float
  /\ Forall
       (fun c =>
          exists p,
            truediv c (len text) = Ok p /\ (0 <? p)%float = true
            /\ math_log2 libm_log2 p = Ok (libm_log2 p))
       (map snd (char_freq text)).
Proof.
  intros Hlen. split; [| split].
  - now apply shannon_entropy_ok.
  - reflexivity.
  - eapply Forall_impl; [| apply char_freq_counts].
    intros c Hc. cbv beta in Hc. exists (fratio c (len text)).
    split; [| split].
    + apply truediv_ok. lia.
    + pose proof (ratio_regular Hc Hlen) as R. unfold ratio_is_regular in R.
      cbv zeta in R. apply andb_true_iff in R as [R _].
      now apply andb_true_iff in R as [R _].
    + now apply math_log2_ok.
Qed.

(** X15: carriage returns and newlines before and after the password do
    not change the verdict. *)
Theorem surrounding_newlines_ignored (pre password post : str) :
  Forall (fun c => newline c = true) pre ->
  Forall (fun c => newline c = true) post ->
  is_valid_password libm_log2 (pre ++ password ++ post)
  = is_valid_password libm_log2 password.
Proof.
  intros Hpre Hpost.
  now rewrite !is_valid_password_eq,
    (@strip_surrounded [LF; CR] pre password post Hpre Hpost).
Qed.

End Robustness.

(** ** Passwords that are always rejected *)

Lemma edges_outside_Forall (chars w : str) :
  w <> [] -> Forall (fun c => char_in c chars = false) w ->
  edges_outside chars w = true.
Proof.
  intros Hne H. unfold edges_outside.
  destruct w as [|c w]; [now contradiction Hne |]. cbn [hd_error].
  destruct (rev (c :: w)) as [|d u] eqn:E.
  - apply (f_equal (@List.length ascii)) in E. rewrite length_rev in E.
    discriminate E.
  - cbn [hd_error]. rewrite Forall_forall in H.
    rewrite (H c) by now left.
    rewrite (H d); [reflexivity |].
    apply in_rev. rewrite E. now left.
Qed.

Lemma occurs_Forall (P : ascii -> Prop) (w r : str) :
  occurs w r -> Forall P r -> Forall P w.
Proof.
  intros (pre & post & ->) H.
  apply Forall_app in H as [_ H]. now apply Forall_app in H as [H _].
Qed.

Lemma strip_fixed (chars s : str) :
  Forall (fun c => char_in c chars = false) s -> strip chars s = s.
Proof.
  assert (L : forall u, Forall (fun c => char_in c chars = false) u ->
                        lstrip chars u = u).
  { intros u Hu. destruct Hu as [|c u Hc Hu]; simpl; [reflexivity | now rewrite Hc]. }
  intros H. unfold strip, rstrip. rewrite (L s H).
  rewrite (L (rev s)) by now apply Forall_rev.
  apply rev_involutive.
Qed.

Lemma long_run_of_run (c : ascii) (k : nat) (text : str) :
  c <> LF -> has_run c (S k) text -> long_run_same_char text k = true.
Proof.
  intros Hc (pre & post & ->). unfold long_run_same_char.
  apply re_search_spec. exists pre, (repeat c (S k) ++ post).
  split; [reflexivity |]. apply match_here_run. now exists c, post.
Qed.

Lemma fatal_long_run (s : str) :
  long_run_same_char s 4 = true -> fatal s = true.
Proof. intros H. unfold fatal. rewrite H. now rewrite orb_true_r. Qed.

Lemma fatal_keyboard (s : str) :
  has_keyboard_run s 5 = true -> fatal s = true.
Proof.
  intros H. unfold fatal. rewrite H.
  now rewrite !orb_true_r.
Qed.

Lemma fatal_repeating (s : str) :
  repeating_substring s = true -> fatal s = true.
Proof. intros H. unfold fatal. rewrite H. now rewrite orb_true_r. Qed.

Lemma fatal_ambiguous (s : str) :
  (0.55 <? amb_value s)%float = true -> fatal s = true.
Proof. intros H. unfold fatal. rewrite H. apply orb_true_r. Qed.

Lemma newline_false (c : ascii) :
  newline c = false <-> c <> LF /\ c <> CR.
Proof.
  unfold newline, char_in. cbn [existsb].
  rewrite orb_false_r, orb_false_iff, !Ascii.eqb_neq. reflexivity.
Qed.

Lemma runs_without_newline :
  forallb (forallb (fun c => negb (newline c)))
    (sequence_runs ++ keyboard_rows) = true.
Proof. vm_compute. reflexivity. Qed.

Lemma run_without_newline (r w : str) :
  In r (sequence_runs ++ keyboard_rows) ->
  occurs w r \/ occurs w (rev r) ->
  Forall (fun c => char_in c [LF; CR] = false) w.
Proof.
  intros Hr Ho. pose proof runs_without_newline as T.
  rewrite forallb_forall in T. specialize (T r Hr).
  rewrite forallb_forall in T.
  assert (Hall : Forall (fun c => char_in c [LF; CR] = false) r).
  { apply Forall_forall. intros c Hc. apply negb_true_iff. now apply T. }
  destruct Ho as [Ho | Ho].
  - exact (occurs_Forall Ho Hall).
  - exact (occurs_Forall Ho (Forall_rev Hall)).
Qed.

Lemma len_str_mul (unit : str) (k : nat) :
  len (str_mul unit k) = k * len unit.
Proof.
  induction k as [|k IH]; simpl; [reflexivity |]. rewrite len_app, IH. lia.
Qed.

Lemma repeating_of_unit (unit : str) (k : nat) :
  1 <= len unit <= 3 -> 2 <= k -> repeating_substring (str_mul unit k) = true.
Proof.
  intros Hu Hk. unfold repeating_substring. cbv zeta.
  rewrite len_str_mul. apply existsb_exists. exists (len unit). split.
  - apply in_seq. nia.
  - rewrite Nat.Div0.mod_mul, Nat.div_mul by lia. cbn [Nat.eqb andb].
    apply str_eqb_eq. destruct k as [|k]; [lia |].
    cbn [str_mul]. now rewrite slice_prefix.
Qed.

Section Rejections.

Variable libm_log2 : float -> float.

(** X16: a password in which one character other than a carriage return or
    a newline stands 5 times in a row is rejected. *)
Theorem repeated_character_rejected (c : ascii) (password : str) :
  newline c = false ->
  has_run c 5 password ->
  is_valid_password libm_log2 password = Ok false.
Proof.
  intros Hc Hrun. apply rejected_fatal, fatal_long_run.
  apply newline_false in Hc as Hc'. destruct Hc' as [HLF _].
  apply (long_run_of_run HLF).
  apply strip_keeps_occurrence; [| exact Hrun].
  apply edges_outside_Forall; [discriminate |].
  repeat constructor; exact Hc.
Qed.

(** X17: a password is rejected when it holds 5 characters in a row of the
    lowercase alphabet, the uppercase alphabet or the digits, forwards or
    backwards, or when its lowercased form holds 5 keys in a row of a
    keyboard row, forwards or backwards. *)
Theorem run_of_five_rejected (password r w : str) :
  len w = 5 ->
  occurs w r \/ occurs w (rev r) ->
  (In r sequence_runs /\ occurs w password)
  \/ (In r keyboard_rows /\ occurs w (lower password)) ->
  is_valid_password libm_log2 password = Ok false.
Proof.
  intros Hn Hr H. apply rejected_fatal.
  assert (Hw : edges_outside [LF; CR] w = true).
  { apply edges_outside_Forall.
    - intros ->. discriminate Hn.
    - apply (@run_without_newline r w); [| exact Hr].
      apply in_or_app. destruct H as [[H _] | [H _]]; auto. }
  destruct H as [[Hin Ho] | [Hin Ho]].
  - apply fatal_sequence, sequence_iff. exists r, w.
    repeat split; try assumption. now apply strip_keeps_occurrence.
  - apply fatal_keyboard, keyboard_iff. exists r, w.
    repeat split; try assumption.
    rewrite lower_strip by exact lower_char_newlines.
    now apply strip_keeps_occurrence.
Qed.

(** X18: a password is rejected when more than 55% of the characters of
    its stripped form are lookalike characters. *)
Theorem lookalike_majority_rejected (password : str) :
  11 * len (strip [LF; CR] password)
  < 20 * ambiguous_count (strip [LF; CR] password) ->
  is_valid_password libm_log2 password = Ok false.
Proof.
  intros H. set (s := strip [LF; CR] password) in *.
  destruct (in_length_window s) eqn:Hw;
    [| apply rejected_outside; fold s; now rewrite Hw].
  apply rejected_fatal, fatal_ambiguous. fold s.
  apply in_length_window_spec in Hw.
  assert (Hn : 1 <= len s <= 128) by lia.
  pose proof (thresholds_exact (ambiguous_count_le s) Hn) as T.
  unfold thresholds_agree in T. cbv zeta in T.
  repeat (apply andb_true_iff in T as [T _]).
  apply eqb_prop in T. unfold amb_value.
  replace (Nat.max 1 (len s)) with (len s) by lia.
  rewrite T. now apply Nat.ltb_lt.
Qed.

(** X19: a password made of a unit of 1, 2 or 3 characters, none of them a
    carriage return or a newline, repeated twice or more, is rejected. *)
Theorem repeated_unit_rejected (unit : str) (k : nat) :
  1 <= len unit <= 3 -> 2 <= k ->
  Forall (fun c => newline c = false) unit ->
  is_valid_password libm_log2 (str_mul unit k) = Ok false.
Proof.
  intros Hu Hk Hnl. apply rejected_fatal, fatal_repeating.
  rewrite strip_fixed; [now apply repeating_of_unit |].
  clear Hk. induction k as [|k IH]; simpl; [constructor |].
  apply Forall_app. split; [exact Hnl | exact IH].
Qed.

End Rejections.

(** ** Word-like chunks and CamelCase *)

Lemma match_star_spec (p : cls) (s : str) (k : str -> bool) :
  match_star p s k = true
  <-> exists a b, s = a ++ b /\ Forall (fun c => p c = true) a /\ k b = true.
Proof.
  induction s as [|c t IH]; cbn [match_star].
  - rewrite orb_false_r. split.
    + intros H. exists [], []. auto.
    + intros (a & b & E & _ & H). symmetry in E.
      apply app_eq_nil in E as [_ ->]. exact H.
  - rewrite orb_true_iff, andb_true_iff, IH. split.
    + intros [H | [Hc (a & b & -> & Ha & Hb)]].
      * exists [], (c :: t). auto.
      * exists (c :: a), b. auto.
    + intros (a & b & E & Ha & Hb). destruct a as [|x a].
      * left. simpl in E. now rewrite E.
      * right. injection E as -> ->. inversion Ha; subst.
        split; [assumption |]. now exists a, b.
Qed.

Lemma match_here_camel (s : str) : match_here re_camel s = true <-> camel_at s.
Proof.
  unfold match_here, re_camel, camel_at. cbn [rmatch].
  destruct s as [|u1 [|l t]].
  - split; [discriminate | intros (? & ? & ? & ? & E & _); discriminate].
  - rewrite andb_false_r. split; [discriminate |].
    intros (? & lows & ? & ? & E & _ & Hne & _).
    injection E as _ E. destruct lows; [now contradiction Hne | discriminate].
  - rewrite !andb_true_iff, match_star_spec. split.
    + intros (Hu1 & Hl & a & b & -> & Ha & Hb).
      destruct b as [|u2 post]; [discriminate |].
      apply andb_true_iff in Hb as [Hu2 _].
      exists u1, (l :: a), u2, post. repeat split; auto. discriminate.
    + intros (u & lows & u2 & post & E & Hu1 & Hne & Hl & Hu2).
      injection E as <- E. destruct lows as [|l' a]; [now contradiction Hne |].
      injection E as <- ->. inversion Hl; subst.
      repeat split; auto. exists a, (u2 :: post). repeat split; auto.
      rewrite Hu2. simpl. apply match_star_any.
Qed.

Lemma later_chunk_sep (sep : cls) (x : ascii) (t w : str) :
  sep x = true ->
  later_chunk sep (x :: t) w <-> first_chunk sep [] t w \/ later_chunk sep t w.
Proof.
  intros Hx. unfold later_chunk, first_chunk. split.
  - intros (pre & c & a & post & E & Hc & Ha & Hp & Hw).
    destruct pre as [|y pre]; injection E as -> ->.
    + left. now exists a, post.
    + right. now exists pre, c, a, post.
  - intros [(a & post & -> & Ha & Hp & Hw) | (pre & c & a & post & -> & H)].
    + exists [], x, a, post. now rewrite Hw.
    + now exists (x :: pre), c, a, post.
Qed.

Lemma first_chunk_sep (sep : cls) (x : ascii) (cur t w : str) :
  sep x = true -> first_chunk sep cur (x :: t) w <-> w = rev cur.
Proof.
  intros Hx. unfold first_chunk. split.
  - intros (a & post & E & Ha & Hp & ->). destruct a as [|y a].
    + apply app_nil_r.
    + injection E as <- _. inversion Ha; congruence.
  - intros ->. exists [], (x :: t). repeat split; auto.
    now rewrite app_nil_r.
Qed.

Lemma chunks_not_sep (sep : cls) (x : ascii) (cur t w : str) :
  sep x = false ->
  (first_chunk sep cur (x :: t) w <-> first_chunk sep (x :: cur) t w)
  /\ (later_chunk sep (x :: t) w <-> later_chunk sep t w).
Proof.
  intros Hx. unfold first_chunk, later_chunk. split; split.
  - intros (a & post & E & Ha & Hp & ->). destruct a as [|y a].
    + simpl in E. subst post. simpl in Hp. congruence.
    + injection E as <- ->. inversion Ha; subst.
      exists a, post. repeat split; auto. simpl. now rewrite <- app_assoc.
  - intros (a & post & -> & Ha & Hp & ->).
    exists (x :: a), post. repeat split; auto. simpl. now rewrite <- app_assoc.
  - intros (pre & c & a & post & E & Hc & H).
    destruct pre as [|y pre]; injection E as -> ->; [congruence |].
    now exists pre, c, a, post.
  - intros (pre & c & a & post & -> & H). now exists (x :: pre), c, a, post.
Qed.

(** The pieces [split_loop] returns, the empty ones aside. *)
Lemma split_loop_spec (sep : cls) (s : str) :
  forall cur in_sep w,
    (in_sep = true -> cur = []) -> w <> [] ->
    In w (split_loop sep s cur in_sep)
    <-> first_chunk sep cur s w \/ later_chunk sep s w.
Proof.
  induction s as [|x t IH]; intros cur in_sep w Hcur Hw; cbn [split_loop].
  - simpl. unfold first_chunk, later_chunk. split.
    + intros [<- | []]. left. exists [], []. repeat split; auto.
      now rewrite app_nil_r.
    + intros [(a & post & E & _ & _ & ->) | (pre & c & a & post & E & _)].
      * symmetry in E. apply app_eq_nil in E as [-> _].
        left. now rewrite app_nil_r.
      * destruct pre; discriminate.
  - destruct (sep x) eqn:Hx.
    + rewrite (@first_chunk_sep sep x cur t w Hx),
        (@later_chunk_sep sep x t w Hx).
      destruct in_sep.
      * rewrite (Hcur eq_refl). rewrite (IH [] true w) by auto.
        simpl. intuition congruence.
      * simpl. rewrite (IH [] true w) by auto. intuition congruence.
    + destruct (@chunks_not_sep sep x cur t w Hx) as [-> ->].
      apply IH; [discriminate | exact Hw].
Qed.

Lemma re_split_plus_spec (sep : cls) (text w : str) :
  w <> [] -> In w (re_split_plus sep text) <-> is_chunk sep w text.
Proof.
  intros Hw. unfold re_split_plus.
  rewrite split_loop_spec by (auto; discriminate).
  unfold first_chunk, later_chunk, is_chunk. split.
  - intros [(a & post & -> & Ha & Hp & ->) | (pre & c & a & post & -> & Hc & Ha & Hp & ->)].
    + split; [exact Ha |]. exists [], post. repeat split; auto.
    + split; [exact Ha |]. exists (pre ++ [c]), post.
      rewrite <- app_assoc. repeat split; auto.
      rewrite rev_app_distr. exact Hc.
  - intros (Ha & pre & post & -> & Hpre & Hpost).
    destruct (rev pre) as [|c p] eqn:E.
    + apply (f_equal (@rev ascii)) in E. rewrite rev_involutive in E.
      subst pre. left. now exists w, post.
    + apply (f_equal (@rev ascii)) in E. rewrite rev_involutive in E.
      subst pre. simpl in Hpre. right. exists (rev p), c, w, post.
      simpl. rewrite <- app_assoc. repeat split; auto.
Qed.

(** X20: [wordish_presence] holds iff some piece of the text between
    separators (whitespace and the characters of [-_.@#$%!:+*]) is
    word-like, or the text holds an uppercase letter, one or more lowercase
    letters and another uppercase letter in a row. *)
Theorem wordish_presence_spec (text : str) :
  wordish_presence text = true
  <-> (exists w, is_chunk re_separator w text
                 /\ looks_like_word_segment w = true)
      \/ (exists pre s, text = pre ++ s /\ camel_at s).
Proof.
  unfold wordish_presence.
  assert (Hne : forall w, looks_like_word_segment w = true -> w <> []).
  { intros w H ->. discriminate H. }
  destruct (existsb looks_like_word_segment (re_split_plus re_separator text))
    eqn:E.
  - split; [intros _ | reflexivity]. left.
    apply existsb_exists in E as (w & Hin & Hw). exists w.
    split; [| exact Hw]. apply re_split_plus_spec; auto.
  - destruct (re_search re_camel text) eqn:C.
    + split; [intros _ | reflexivity]. right.
      apply re_search_spec in C as (pre & s & -> & H).
      exists pre, s. split; [reflexivity | now apply match_here_camel].
    + split; [discriminate |]. intros [(w & Hc & Hw) | (pre & s & -> & H)].
      * assert (X : existsb looks_like_word_segment
                      (re_split_plus re_separator text) = true).
        { apply existsb_exists. exists w. split; [| exact Hw].
          apply re_split_plus_spec; auto. }
        congruence.
      * assert (X : re_search re_camel (pre ++ s) = true).
        { apply re_search_spec. exists pre, s.
          split; [reflexivity | now apply match_here_camel]. }
        congruence.
Qed.

(** ** One class and no word *)

Section Necessary.

Variable libm_log2 : float -> float.

Hypothesis libm_log2_finite :
  forall x, (0 <? x)%float = true -> is_finite x = true ->
            is_finite (libm_log2 x) = true.

(** X21: a password whose stripped form shows at most one of the four
    character classes and no word-like part is rejected: the class penalty
    of -3 leaves at most 2 points. *)
Theorem single_class_without_word_rejected (password : str) :
  (class_count (strip [LF; CR] password) <= 1)%Z ->
  wordish_presence (strip [LF; CR] password) = false ->
  is_valid_password libm_log2 password = Ok false.
Proof.
  intros Hc Hw. set (s := strip [LF; CR] password) in *.
  destruct (in_length_window s) eqn:Hin;
    [| apply rejected_outside; fold s; now rewrite Hin].
  destruct (fatal s) eqn:Hf; [now apply rejected_fatal |].
  apply rejected_by_points; try assumption. fold s.
  unfold score_points, class_points. rewrite Hw.
  destruct (Z.leb_spec 3 (class_count s)); [lia |].
  destruct (Z.eqb_spec (class_count s) 2); [lia |].
  unfold length_points, uniq_points, amb_points, row.
  repeat match goal with |- context [if ?c then _ else _] => destruct c end;
    lia.
Qed.

End Necessary.

(** ** The added theorems at concrete inputs *)

Lemma ambiguous_ratio_range_witness :
  exists r, ambiguous_ratio (lit "B00k5") = Ok r /\ (r <=? 1)%float = true.
Proof.
  assert (H : len (lit "B00k5") <= 128) by (vm_compute; lia).
  destruct (@ambiguous_ratio_range (lit "B00k5") H) as (r & Hr & _ & Hle & _).
  exists r. split; assumption.
Defined.

Lemma shannon_entropy_never_raises_witness :
  exists H, shannon_entropy_per_char log2_interp (lit "banana") = Ok H.
Proof.
  assert (H : len (lit "banana") <= 128) by (vm_compute; lia).
  apply (proj1 (@shannon_entropy_never_raises log2_interp log2_interp_finite
                  (lit "banana") H)).
Defined.

Lemma surrounding_newlines_ignored_witness :
  is_valid_password log2_interp ([CR; LF] ++ lit "Nova_7em" ++ [LF])
  = is_valid_password log2_interp (lit "Nova_7em").
Proof.
  apply (@surrounding_newlines_ignored log2_interp [CR; LF] (lit "Nova_7em") [LF]);
    repeat constructor.
Defined.

Lemma repeated_character_rejected_witness :
  is_valid_password log2_interp (lit "Nova_7emmmmm") = Ok false.
Proof.
  apply (@repeated_character_rejected log2_interp "m"%char (lit "Nova_7emmmmm")).
  - reflexivity.
  - exists (lit "Nova_7e"), []. reflexivity.
Defined.

Lemma run_of_five_rejected_witness :
  is_valid_password log2_interp (lit "Nova_LKJHG7") = Ok false.
Proof.
  apply (@run_of_five_rejected log2_interp (lit "Nova_LKJHG7")
           (lit "asdfghjkl") (lit "lkjhg")).
  - reflexivity.
  - right. exists [], (lit "fdsa"). reflexivity.
  - right. split; [simpl; auto |]. exists (lit "nova_"), (lit "7"). reflexivity.
Defined.

Lemma lookalike_majority_rejected_witness :
  is_valid_password log2_interp (lit "B00k5ellS") = Ok false.
Proof.
  apply (@lookalike_majority_rejected log2_interp (lit "B00k5ellS")).
  vm_compute. lia.
Defined.

Lemma repeated_unit_rejected_witness :
  is_valid_password log2_interp (lit "aB3aB3aB3") = Ok false.
Proof.
  apply (@repeated_unit_rejected log2_interp (lit "aB3") 3).
  - vm_compute. lia.
  - lia.
  - repeat constructor.
Defined.

Lemma single_class_without_word_rejected_witness :
  is_valid_password log2_interp (lit "zq xv kj wp") = Ok false.
Proof.
  apply (@single_class_without_word_rejected log2_interp log2_interp_finite
           (lit "zq xv kj wp")).
  - vm_compute. discriminate.
  - vm_compute. reflexivity.
Defined.

Lemma wordish_presence_spec_witness :
  wordish_presence (lit "x9-River") = true.
Proof.
  apply (proj2 (wordish_presence_spec (lit "x9-River"))). left.
  exists (lit "River"). split; [| vm_compute; reflexivity].
  split; [repeat constructor |].
  exists (lit "x9-"), []. repeat split; vm_compute; reflexivity.
Defined.

Lemma run_detectors_reverse_witness :
  has_keyboard_run (lit "7GFDSAx") 5 = has_keyboard_run (lit "xASDFG7") 5.
Proof.
  apply (proj2 (run_detectors_reverse (lit "xASDFG7") 5) (lit "7GFDSAx")).
  reflexivity.
Defined.
